(** * Exact inference by enumeration over a family pedigree (heredity.py)

    A shallow embedding of the inference engine of [heredity.py]:
    [powerset], the evidence filter and world enumeration of [main],
    [joint_probability], [update] and [normalize].

    Numbers.  The Python code computes with floats; in module [Heredity]
    every number is an exact rational ([Qc], canonical fractions, so that
    equality of numbers is Leibniz equality).  All statements of that
    module are statements about the algorithm over exact rationals.
    Module [HeredityFloat] runs the accumulation and the normalization on
    binary64 floats, and shows where the program parts from the algorithm
    over exact numbers.

    Containers.  The [people] dictionary and the [probabilities] store are
    finite maps keyed by the person's name ([gmap string _]); the sets
    [one_gene], [two_genes], [have_trait] and [names] are finite sets of
    names ([gset string]).  The inner dictionaries of the store have the
    fixed keys [0, 1, 2] and [True, False] and are records. *)

From stdpp Require Import gmap strings list fin_maps.
From Stdlib Require Import QArith Qcanon Field ZArith.
From Stdlib Require Floats.

Local Open Scope Qc_scope.
#[local] Set Warnings "-clear-no-such-hyp".

Module Heredity.

(** ** The probability tables [PROBS] *)

(** Number of copies of the gene: the keys [0], [1], [2] of
    [PROBS["gene"]] and [PROBS["trait"]]. *)
Inductive copies : Set := Zero | One | Two.

Global Instance copies_eq_dec : EqDecision copies.
Proof. solve_decision. Defined.

(** [PROBS["gene"]]: unconditional probabilities for having the gene. *)
Definition PROBS_gene (num_genes : copies) : Qc :=
  match num_genes with
  | Two => Q2Qc (1 # 100)
  | One => Q2Qc (3 # 100)
  | Zero => Q2Qc (96 # 100)
  end.

(** [PROBS["trait"]]: probability of the trait given the number of copies. *)
Definition PROBS_trait (num_genes : copies) (has_trait : bool) : Qc :=
  match num_genes, has_trait with
  | Two, true => Q2Qc (65 # 100)
  | Two, false => Q2Qc (35 # 100)
  | One, true => Q2Qc (56 # 100)
  | One, false => Q2Qc (44 # 100)
  | Zero, true => Q2Qc (1 # 100)
  | Zero, false => Q2Qc (99 # 100)
  end.

(** [PROBS["mutation"]]. *)
Definition PROBS_mutation : Qc := Q2Qc (1 # 100).

(** The literal [0.5]. *)
Definition half : Qc := Q2Qc (1 # 2).

(** ** People *)

(** A row of the data: [mother] and [father] are [None] when blank, [trait]
    is [Some true], [Some false] or [None] (unknown). *)
Record person_data : Set := {
  name : string;
  mother : option string;
  father : option string;
  trait : option bool
}.

(** [x in s] where [x] is a name or [None] and [s] a set of names: [None]
    is a member of no set of names. *)
Definition member (x : option string) (s : gset string) : bool :=
  match x with
  | Some n => bool_decide (n ∈ s)
  | None => false
  end.

(** ** [joint_probability] *)

(** Lines 146-151: the number of copies of a person in a world. *)
Definition num_genes_of (one_gene two_genes : gset string) (person : string) : copies :=
  if bool_decide (person ∈ one_gene) then One
  else if bool_decide (person ∈ two_genes) then Two
  else Zero.

(** Lines 162-171: [mother_prob] and [father_prob], the same conditional
    expression on [data['mother']] and on [data['father']]. *)
Definition parent_prob (one_gene two_genes : gset string) (parent : option string) : Qc :=
  if member parent one_gene then half
  else if member parent two_genes then 1 - PROBS_mutation
  else PROBS_mutation.

(** Lines 157-178: [gene_prob]. *)
Definition gene_prob (one_gene two_genes : gset string)
    (num_genes : copies) (data : person_data) : Qc :=
  match mother data, father data with
  | None, None => PROBS_gene num_genes
  | _, _ =>
      let mother_prob := parent_prob one_gene two_genes (mother data) in
      let father_prob := parent_prob one_gene two_genes (father data) in
      match num_genes with
      | Zero => (1 - mother_prob) * (1 - father_prob)
      | One => mother_prob * (1 - father_prob) + (1 - mother_prob) * father_prob
      | Two => mother_prob * father_prob
      end
  end.

(** The factor [gene_prob * trait_prob] of one iteration of the loop. *)
Definition person_factor (one_gene two_genes have_trait : gset string)
    (person : string) (data : person_data) : Qc :=
  let num_genes := num_genes_of one_gene two_genes person in
  let has_trait := bool_decide (person ∈ have_trait) in
  gene_prob one_gene two_genes num_genes data * PROBS_trait num_genes has_trait.

(** Lines 142-183: the loop [for person, data in people.items()] with
    [probability *= gene_prob * trait_prob], started at [1]. *)
Definition joint_probability (people : gmap string person_data)
    (one_gene two_genes have_trait : gset string) : Qc :=
  map_fold
    (λ person data probability,
       probability * person_factor one_gene two_genes have_trait person data)
    1 people.

(** ** [powerset] *)

(** [itertools.combinations(s, r)]: the [r]-element subsequences of [s], in
    lexicographic order of their positions. *)
Fixpoint combinations {A : Type} (s : list A) (r : nat) : list (list A) :=
  match r, s with
  | O, _ => [[]]
  | S _, [] => []
  | S r', x :: s' => ((x ::.) <$> combinations s' r') ++ combinations s' r
  end.

(** [list(s)] lists the elements of a set in an order that Python leaves
    unspecified.  The enumeration takes this listing as a parameter
    [list_of]; all that is known of it is [listing]: it lists the elements
    of the set, each one once. *)
Definition listing (list_of : gset string → list string) : Prop :=
  ∀ s, list_of s ≡ₚ elements s.

(** Lines 124-128: the list comprehension of [powerset], [s] being the
    list: the combinations of every size from [0] to [len(s)], chained,
    each made a set. *)
Definition powerset_of_list (s : list string) : list (gset string) :=
  list_to_set <$> (r ← seq 0 (length s + 1); combinations s r).

(** Lines 119-128: [powerset], with [s = list(s)] first. *)
Definition powerset (list_of : gset string → list string)
    (s : gset string) : list (gset string) :=
  let s := list_of s in
  powerset_of_list s.

(** The combinations of size [r], each made a set. *)
Definition subsets_of_size (s : list string) (r : nat) : list (gset string) :=
  list_to_set <$> combinations s r.

(** ** The evidence filter *)

(** Short-circuit [any] over a generator whose items may raise ([None]). *)
Fixpoint any {A : Type} (f : A → option bool) (l : list A) : option bool :=
  match l with
  | [] => Some false
  | x :: l' => b ← f x; if b : bool then Some true else any f l'
  end.

(** Lines 69-70: the generator's item for one person; [people[person]] is a
    dictionary lookup, [None] standing for [KeyError]. *)
Definition contradicts (people : gmap string person_data)
    (have_trait : gset string) (person : string) : option bool :=
  data ← people !! person;
  Some (match trait data with
        | None => false
        | Some t => negb (eqb t (bool_decide (person ∈ have_trait)))
        end).

(** Lines 68-72: [fails_evidence], with [names = set(people)]. *)
Definition fails_evidence (list_of : gset string → list string)
    (people : gmap string person_data) (have_trait : gset string) : option bool :=
  let names := dom people in
  any (contradicts people have_trait) (list_of names).

(** What the evidence says against [have_trait] at one person: the
    observed value is known and differs from membership. *)
Definition contradicted (have_trait : gset string) (person : string)
    (data : person_data) : Prop :=
  (trait data = Some true ∧ person ∉ have_trait) ∨
  (trait data = Some false ∧ person ∈ have_trait).

(** ** The [probabilities] store *)

(** [probabilities[person]["gene"]], keys [2], [1], [0]. *)
Record gene_dist : Set := {
  copies2 : Qc;
  copies1 : Qc;
  copies0 : Qc
}.

(** [probabilities[person]["trait"]], keys [True], [False]. *)
Record trait_dist : Set := {
  trait_true : Qc;
  trait_false : Qc
}.

(** [probabilities[person]]. *)
Record distributions : Set := {
  dist_gene : gene_dist;
  dist_trait : trait_dist
}.

(** Lines 48-61: the store [main] starts from. *)
Definition zero_distributions : distributions :=
  {| dist_gene := {| copies2 := 0; copies1 := 0; copies0 := 0 |};
     dist_trait := {| trait_true := 0; trait_false := 0 |} |}.

Definition initial_probabilities (people : gmap string person_data)
    : gmap string distributions :=
  (λ _, zero_distributions) <$> people.

(** [sum(d.values())] for the two inner dictionaries: Python's [sum]
    starts from [0] and adds the values in the order of the keys. *)
Definition gene_sum (g : gene_dist) : Qc := 0 + copies2 g + copies1 g + copies0 g.
Definition trait_sum (t : trait_dist) : Qc := 0 + trait_true t + trait_false t.

(** ** [update] *)

(** Line 203: [probabilities[person]["gene"][num_genes] += p]. *)
Definition add_gene (g : gene_dist) (num_genes : copies) (p : Qc) : gene_dist :=
  match num_genes with
  | Two => {| copies2 := copies2 g + p; copies1 := copies1 g; copies0 := copies0 g |}
  | One => {| copies2 := copies2 g; copies1 := copies1 g + p; copies0 := copies0 g |}
  | Zero => {| copies2 := copies2 g; copies1 := copies1 g; copies0 := copies0 g + p |}
  end.

(** Lines 196-207: the body of the loop of [update] for one person. *)
Definition update_person (one_gene two_genes have_trait : gset string) (p : Qc)
    (person : string) (d : distributions) : distributions :=
  let num_genes := num_genes_of one_gene two_genes person in
  {| dist_gene := add_gene (dist_gene d) num_genes p;
     dist_trait :=
       {| trait_true :=
            trait_true (dist_trait d) + (if bool_decide (person ∈ have_trait) then p else 0);
          trait_false :=
            trait_false (dist_trait d) + (if bool_decide (person ∉ have_trait) then p else 0) |} |}.

(** Lines 187-207: [update] rewrites the entry of every person of the store. *)
Definition update (probabilities : gmap string distributions)
    (one_gene two_genes have_trait : gset string) (p : Qc)
    : gmap string distributions :=
  map_imap (λ person d, Some (update_person one_gene two_genes have_trait p person d))
    probabilities.

(** ** [normalize] *)

(** Python's [x / y] raises [ZeroDivisionError] when [y] is zero. *)
Definition div (x y : Qc) : option Qc :=
  if decide (y = 0) then None else Some (x / y).

(** Lines 218-221. *)
Definition normalize_gene (g : gene_dist) : option gene_dist :=
  let gene_sum := gene_sum g in
  if decide (0 < gene_sum) then
    c2 ← div (copies2 g) gene_sum;
    c1 ← div (copies1 g) gene_sum;
    c0 ← div (copies0 g) gene_sum;
    Some {| copies2 := c2; copies1 := c1; copies0 := c0 |}
  else Some g.

(** Lines 224-227. *)
Definition normalize_trait (t : trait_dist) : option trait_dist :=
  let trait_sum := trait_sum t in
  if decide (0 < trait_sum) then
    tt ← div (trait_true t) trait_sum;
    tf ← div (trait_false t) trait_sum;
    Some {| trait_true := tt; trait_false := tf |}
  else Some t.

Definition normalize_person (d : distributions) : option distributions :=
  g ← normalize_gene (dist_gene d);
  t ← normalize_trait (dist_trait d);
  Some {| dist_gene := g; dist_trait := t |}.

(** Lines 211-227: [normalize] visits every person of the store and
    rewrites that person's entry in place; an exception ([None]) ends it. *)
Definition normalize (probabilities : gmap string distributions)
    : option (gmap string distributions) :=
  map_fold
    (λ person d store,
       probabilities ← store;
       d' ← normalize_person d;
       Some (<[person := d']> probabilities))
    (Some probabilities) probabilities.

(** What [normalize] computes for one person when no division raises:
    used to state that none does. *)
Definition scaled_gene (g : gene_dist) : gene_dist :=
  if decide (0 < gene_sum g) then
    {| copies2 := copies2 g / gene_sum g;
       copies1 := copies1 g / gene_sum g;
       copies0 := copies0 g / gene_sum g |}
  else g.

Definition scaled_trait (t : trait_dist) : trait_dist :=
  if decide (0 < trait_sum t) then
    {| trait_true := trait_true t / trait_sum t;
       trait_false := trait_false t / trait_sum t |}
  else t.

Definition scaled (d : distributions) : distributions :=
  {| dist_gene := scaled_gene (dist_gene d);
     dist_trait := scaled_trait (dist_trait d) |}.

(** ** The enumeration of [main] *)

(** A world: [(one_gene, two_genes, have_trait)]. *)
Definition world : Type := gset string * gset string * gset string.

(** Lines 77-78: the two inner loops, for one [have_trait]. *)
Definition gene_worlds (list_of : gset string → list string)
    (names : gset string) : list (gset string * gset string) :=
  one_gene ← powerset list_of names;
  two_genes ← powerset list_of (names ∖ one_gene);
  [(one_gene, two_genes)].

(** Lines 65-78: the worlds for which the body of the innermost loop runs,
    in the order in which the three nested loops reach them. *)
Definition worlds (list_of : gset string → list string)
    (people : gmap string person_data) : option (list world) :=
  let names := dom people in
  per_trait ← mapM
    (λ have_trait,
       fails ← fails_evidence list_of people have_trait;
       Some (if fails : bool then []
             else (λ g, (g.1, g.2, have_trait)) <$> gene_worlds list_of names))
    (powerset list_of names);
  Some (concat per_trait).

(** The worlds that [main] reaches under one [have_trait], in closed form:
    all the gene worlds when the evidence filter accepts, none otherwise. *)
Definition worlds_of_trait (list_of : gset string → list string)
    (people : gmap string person_data) (have_trait : gset string) : list world :=
  if decide (fails_evidence list_of people have_trait = Some false)
  then (λ g, (g.1, g.2, have_trait)) <$> gene_worlds list_of (dom people)
  else [].

(** Lines 81-82: the body of the innermost loop. *)
Definition accumulate (people : gmap string person_data)
    (probabilities : gmap string distributions) (w : world)
    : gmap string distributions :=
  let '(one_gene, two_genes, have_trait) := w in
  let p := joint_probability people one_gene two_genes have_trait in
  update probabilities one_gene two_genes have_trait p.

(** Lines 48-85 of [main]: from the loaded [people] to the normalized
    store that is printed. *)
Definition main (list_of : gset string → list string)
    (people : gmap string person_data) : option (gmap string distributions) :=
  ws ← worlds list_of people;
  normalize (foldl (accumulate people) (initial_probabilities people) ws).

(** The row of a founder: no mother, no father. *)
Definition founder (person : string) (observed : option bool) : person_data :=
  {| name := person; mother := None; father := None; trait := observed |}.

(** A sequence of calls of [update], each with its world and its [p]. *)
Definition update_all (probabilities : gmap string distributions)
    (calls : list (world * Qc)) : gmap string distributions :=
  foldl (λ probabilities '(one_gene, two_genes, have_trait, p),
           update probabilities one_gene two_genes have_trait p)
    probabilities calls.

(** The total of the [p] of a sequence of calls. *)
Definition total (calls : list (world * Qc)) : Qc :=
  foldr (λ c acc, c.2 + acc) 0 calls.

(** ** Auxiliary definitions for [main] *)

(** The calls of [update] that [main] makes for a list of worlds. *)
Definition calls_of (people : gmap string person_data) (ws : list world)
    : list (world * Qc) :=
  (λ w : world, (w, joint_probability people w.1.1 w.1.2 w.2)) <$> ws.

(** The people observed to have the trait. *)
Definition observed_true (people : gmap string person_data) : gset string :=
  dom (filter (λ kd, trait kd.2 = Some true) people).

(** ** [load_data] *)

(** A row as [csv.DictReader] yields it for a file with the columns
    [name], [mother], [father] and [trait]: the four fields, as strings. *)
Record row : Set := {
  row_name : string;
  row_mother : string;
  row_father : string;
  row_trait : string
}.

(** [x or None] for a string [x]: the empty string is falsy. *)
Definition or_None (x : string) : option string :=
  if decide (x = EmptyString) then None else Some x.

(** Lines 109-115: the entry stored for one row. *)
Definition person_of_row (r : row) : person_data :=
  {| name := row_name r;
     mother := or_None (row_mother r);
     father := or_None (row_father r);
     trait := if decide (row_trait r = "1") then Some true
              else if decide (row_trait r = "0") then Some false
              else None |}.

(** Lines 104-116: the loop of [load_data] over the rows of the reader,
    [data[name] = ...] for each row in turn, starting from the empty
    dictionary. *)
Definition load_data (rows : list row) : gmap string person_data :=
  foldl (λ data r, <[row_name r := person_of_row r]> data) ∅ rows.

(** ** The inheritance rule in the words of the specification *)

(** Transmission probability of a named parent: [0.5] if the parent is in
    [one_gene], [1 - 0.01] if the parent is in [two_genes], [0.01]
    otherwise. *)
Definition spec_transmission (one_gene two_genes : gset string) (parent : string) : Qc :=
  if decide (parent ∈ one_gene) then Q2Qc (1 # 2)
  else if decide (parent ∈ two_genes) then 1 - Q2Qc (1 # 100)
  else Q2Qc (1 # 100).

(** [P(0) = (1-m)(1-f)], [P(1) = m(1-f) + (1-m)f], [P(2) = m f]. *)
Definition spec_child_copies (m f : Qc) (num_genes : copies) : Qc :=
  match num_genes with
  | Zero => (1 - m) * (1 - f)
  | One => m * (1 - f) + (1 - m) * f
  | Two => m * f
  end.

(** ** Proof automation *)

(** Closes a goal between closed rational expressions by evaluation. *)
Ltac Qc_evaluate := apply Qc_is_canon; vm_compute; reflexivity.

(** ** Properties of [joint_probability] *)

Section joint_probability.
Context (one_gene two_genes have_trait : gset string).

Lemma parent_prob_cases (parent : option string) :
  parent_prob one_gene two_genes parent = half ∨
  parent_prob one_gene two_genes parent = 1 - PROBS_mutation ∨
  parent_prob one_gene two_genes parent = PROBS_mutation.
Proof. unfold parent_prob. repeat case_match; auto. Qed.

Lemma parent_prob_named (parent : string) :
  parent_prob one_gene two_genes (Some parent)
  = spec_transmission one_gene two_genes parent.
Proof.
  unfold parent_prob, spec_transmission, member.
  repeat (case_bool_decide; case_decide; try done).
Qed.

Lemma gene_prob_parents (num_genes : copies) (data : person_data) :
  mother data ≠ None ∨ father data ≠ None →
  gene_prob one_gene two_genes num_genes data
  = spec_child_copies (parent_prob one_gene two_genes (mother data))
      (parent_prob one_gene two_genes (father data)) num_genes.
Proof.
  unfold gene_prob. destruct (mother data), (father data); intros [?|?]; done.
Qed.

Lemma gene_prob_bounds (num_genes : copies) (data : person_data) :
  0 ≤ gene_prob one_gene two_genes num_genes data ≤ 1.
Proof.
  unfold gene_prob.
  destruct (parent_prob_cases (mother data)) as [Hm|[Hm|Hm]],
    (parent_prob_cases (father data)) as [Hf|[Hf|Hf]];
    destruct (mother data), (father data), num_genes;
    rewrite ?Hm, ?Hf; split; compute_done.
Qed.

Lemma PROBS_trait_bounds (num_genes : copies) (has_trait : bool) :
  0 ≤ PROBS_trait num_genes has_trait ≤ 1.
Proof. destruct num_genes, has_trait; split; compute_done. Qed.

Lemma Qcmult_unit_interval (x y : Qc) : 0 ≤ x ≤ 1 → 0 ≤ y ≤ 1 → 0 ≤ x * y ≤ 1.
Proof.
  intros [Hx0 Hx1] [Hy0 Hy1]. split.
  - by apply Qcmult_nonneg_nonneg.
  - trans (1 * y); [by apply Qcmult_le_mono_nonneg_r|].
    by rewrite Qcmult_1_l.
Qed.

Lemma person_factor_bounds (person : string) (data : person_data) :
  0 ≤ person_factor one_gene two_genes have_trait person data ≤ 1.
Proof.
  apply Qcmult_unit_interval;
    [apply gene_prob_bounds | apply PROBS_trait_bounds].
Qed.

Lemma joint_probability_empty :
  joint_probability ∅ one_gene two_genes have_trait = 1.
Proof. unfold joint_probability. by rewrite map_fold_empty. Qed.

(** The loop multiplies one factor per entry of [people]; as products of
    rationals commute, the factor of any one entry can be split off. *)
Lemma joint_probability_delete (people : gmap string person_data)
    (person : string) (data : person_data) :
  people !! person = Some data →
  joint_probability people one_gene two_genes have_trait
  = joint_probability (delete person people) one_gene two_genes have_trait
    * person_factor one_gene two_genes have_trait person data.
Proof.
  intros Hp. unfold joint_probability.
  rewrite (map_fold_delete_L _ _ person data people); [done| |done].
  intros j1 j2 z1 z2 y _ _ _. ring.
Qed.

Lemma joint_probability_singleton (person : string) (data : person_data) :
  joint_probability {[person := data]} one_gene two_genes have_trait
  = person_factor one_gene two_genes have_trait person data.
Proof.
  unfold joint_probability. rewrite map_fold_singleton. by rewrite Qcmult_1_l.
Qed.

End joint_probability.

(** C1.  For a person of [people] whose [mother] and [father] are both
    names, the gene factor that [joint_probability] multiplies in is the
    specification's inheritance rule: each parent gets the transmission
    probability [0.5], [1 - 0.01] or [0.01] according to its membership of
    [one_gene], of [two_genes] or of neither, and the two are combined as
    [(1-m)(1-f)], [m(1-f) + (1-m)f] or [m f] according to the person's own
    number of copies in the world.  The joint probability is this factor,
    times the trait factor, times the product over the other people. *)
Theorem joint_probability_child_factor (people : gmap string person_data)
    (one_gene two_genes have_trait : gset string)
    (person : string) (data : person_data) (mo fa : string) :
  people !! person = Some data →
  mother data = Some mo →
  father data = Some fa →
  let num_genes := num_genes_of one_gene two_genes person in
  let m := spec_transmission one_gene two_genes mo in
  let f := spec_transmission one_gene two_genes fa in
  gene_prob one_gene two_genes num_genes data = spec_child_copies m f num_genes
  ∧ joint_probability people one_gene two_genes have_trait
    = joint_probability (delete person people) one_gene two_genes have_trait
      * (spec_child_copies m f num_genes
         * PROBS_trait num_genes (bool_decide (person ∈ have_trait))).
Proof.
  intros Hp Hm Hf num_genes m f.
  assert (gene_prob one_gene two_genes num_genes data = spec_child_copies m f num_genes)
    as Hg.
  { rewrite gene_prob_parents by (left; congruence).
    by rewrite Hm, Hf, !parent_prob_named. }
  split; [done|].
  rewrite (joint_probability_delete _ _ _ _ _ _ Hp).
  unfold person_factor. fold num_genes. by rewrite Hg.
Qed.

(** C4.  The joint probability of every world, for every dataset, lies in
    the closed interval from 0 to 1, and it is 1 for the empty dataset. *)
Theorem joint_probability_unit_interval (people : gmap string person_data)
    (one_gene two_genes have_trait : gset string) :
  0 ≤ joint_probability people one_gene two_genes have_trait ≤ 1
  ∧ joint_probability ∅ one_gene two_genes have_trait = 1.
Proof.
  split; [|apply joint_probability_empty].
  unfold joint_probability.
  apply (map_fold_weak_ind (λ r _, 0 ≤ r ≤ 1)); [split; compute_done|].
  intros person data m r _ Hr.
  apply Qcmult_unit_interval; [done|apply person_factor_bounds].
Qed.

(** C8.  [joint_probability] looks no parent up in [people]: it only tests
    the parent field for membership of [one_gene] and of [two_genes].  So a
    person with one parent blank and the other named, or with a parent that
    is no key of [people], goes through the inheritance rule like any other
    child, and every parent field that is in neither set, be it blank, an
    unknown name or a known one, gets the mutation rate [0.01] as its
    transmission probability.  The embedding of [joint_probability] is a
    total function: no step of it can raise. *)
Theorem joint_probability_lenient_parents (people : gmap string person_data)
    (one_gene two_genes have_trait : gset string)
    (person : string) (data : person_data) :
  people !! person = Some data →
  mother data ≠ None ∨ father data ≠ None →
  let num_genes := num_genes_of one_gene two_genes person in
  let m := parent_prob one_gene two_genes (mother data) in
  let f := parent_prob one_gene two_genes (father data) in
  joint_probability people one_gene two_genes have_trait
  = joint_probability (delete person people) one_gene two_genes have_trait
    * (spec_child_copies m f num_genes
       * PROBS_trait num_genes (bool_decide (person ∈ have_trait)))
  ∧ parent_prob one_gene two_genes None = Q2Qc (1 # 100)
  ∧ (∀ parent : string,
       parent ∉ one_gene → parent ∉ two_genes →
       parent_prob one_gene two_genes (Some parent) = Q2Qc (1 # 100))
  ∧ (∀ parent : string,
       people !! parent = None →
       one_gene ⊆ dom people → two_genes ⊆ dom people →
       parent_prob one_gene two_genes (Some parent) = Q2Qc (1 # 100)).
Proof.
  intros Hp Hparents num_genes m f.
  assert (∀ parent : string, parent ∉ one_gene → parent ∉ two_genes →
    parent_prob one_gene two_genes (Some parent) = Q2Qc (1 # 100)) as Hout.
  { intros parent H1 H2. unfold parent_prob, member.
    by rewrite !bool_decide_eq_false_2. }
  split_and!; [|done|done|].
  - rewrite (joint_probability_delete _ _ _ _ _ _ Hp).
    unfold person_factor. fold num_genes.
    rewrite gene_prob_parents; done.
  - intros parent Hnone H1 H2.
    apply not_elem_of_dom in Hnone.
    apply Hout; intros Hin; apply Hnone; [by apply H1 | by apply H2].
Qed.

Lemma joint_probability_lenient_parents_witness :
  let people : gmap string person_data :=
    {[ "Harry" := {| name := "Harry"; mother := Some "Lily"; father := None;
                     trait := None |} ]} in
  joint_probability people {[ "Harry" ]} ∅ ∅
  = (Q2Qc (1 # 100) * Q2Qc (99 # 100) + Q2Qc (99 # 100) * Q2Qc (1 # 100))
    * Q2Qc (44 # 100).
Proof.
  intros people.
  destruct (joint_probability_lenient_parents people {[ "Harry" ]} ∅ ∅ "Harry"
    {| name := "Harry"; mother := Some "Lily"; father := None; trait := None |})
    as [-> _]; [reflexivity | left; discriminate |].
  apply Qc_is_canon. vm_compute. reflexivity.
Defined.

Lemma joint_probability_child_factor_witness :
  let people : gmap string person_data :=
    {[ "Harry" := {| name := "Harry"; mother := Some "Lily"; father := Some "James";
                     trait := None |} ]} in
  joint_probability people ∅ {[ "Harry"; "Lily" ]} {[ "Harry" ]}
  = Q2Qc (99 # 100) * Q2Qc (1 # 100) * Q2Qc (65 # 100).
Proof.
  intros people.
  destruct (joint_probability_child_factor people ∅ {[ "Harry"; "Lily" ]} {[ "Harry" ]}
    "Harry"
    {| name := "Harry"; mother := Some "Lily"; father := Some "James"; trait := None |}
    "Lily" "James")
    as [_ ->]; [reflexivity | reflexivity | reflexivity |].
  apply Qc_is_canon. vm_compute. reflexivity.
Defined.

(** ** The evidence filter *)

Lemma listing_elements : listing elements.
Proof. intros s. reflexivity. Qed.

Lemma listing_elem_of (list_of : gset string → list string) (s : gset string) x :
  listing list_of → x ∈ list_of s ↔ x ∈ s.
Proof. intros Hl. by rewrite (Hl s), elem_of_elements. Qed.

Lemma listing_NoDup (list_of : gset string → list string) (s : gset string) :
  listing list_of → NoDup (list_of s).
Proof. intros Hl. rewrite (Hl s). apply NoDup_elements. Qed.

Lemma listing_length (list_of : gset string → list string) (s : gset string) :
  listing list_of → length (list_of s) = size s.
Proof. intros Hl. by rewrite (Hl s). Qed.

Lemma listing_to_set (list_of : gset string → list string) (s : gset string) :
  listing list_of → list_to_set (list_of s) = s.
Proof.
  intros Hl. apply set_eq. intros x.
  by rewrite elem_of_list_to_set, listing_elem_of.
Qed.

Lemma contradicts_Some (people : gmap string person_data)
    (have_trait : gset string) (person : string) (data : person_data) :
  people !! person = Some data →
  ∃ b, contradicts people have_trait person = Some b
       ∧ (b = true ↔ contradicted have_trait person data).
Proof.
  intros Hp. unfold contradicts, contradicted. rewrite Hp. simpl.
  eexists; split; [done|].
  destruct (trait data) as [[]|]; try case_bool_decide; simpl; naive_solver.
Qed.

Lemma any_total {A} (f : A → option bool) (P : A → Prop) (l : list A) :
  (∀ x, x ∈ l → ∃ b, f x = Some b ∧ (b = true ↔ P x)) →
  ∃ b, any f l = Some b ∧ (b = true ↔ ∃ x, x ∈ l ∧ P x).
Proof.
  induction l as [|x l IH]; intros Hf; simpl.
  - exists false. split; [done|]. split; [done|]. intros (x & Hx & _). inv Hx.
  - destruct (Hf x) as (b & -> & Hb); [apply list_elem_of_here|].
    simpl. destruct b.
    + exists true. split; [done|]. split; [|done]. intros _.
      exists x. split; [apply list_elem_of_here|]. by apply Hb.
    + destruct IH as (b & -> & Hb');
        [intros y Hy; by apply Hf, list_elem_of_further|].
      exists b. split; [done|]. rewrite Hb'. split.
      * intros (y & Hy & HP). exists y. split; [by apply list_elem_of_further|done].
      * intros (y & Hy & HP). apply elem_of_cons in Hy as [->|Hy].
        -- apply Hb in HP. done.
        -- by exists y.
Qed.

Lemma fails_evidence_total (list_of : gset string → list string)
    (people : gmap string person_data) (have_trait : gset string) :
  listing list_of →
  ∃ b, fails_evidence list_of people have_trait = Some b
       ∧ (b = true ↔ ∃ person data,
            people !! person = Some data ∧ contradicted have_trait person data).
Proof.
  intros Hl. unfold fails_evidence.
  destruct (any_total (contradicts people have_trait)
    (λ person, ∃ data, people !! person = Some data
                       ∧ contradicted have_trait person data)
    (list_of (dom people))) as (b & Hb & Hiff).
  - intros person [data Hp]%(listing_elem_of _ _ _ Hl)%elem_of_dom.
    destruct (contradicts_Some people have_trait person data Hp) as (b & Hb & Hiff).
    exists b. split; [done|]. rewrite Hiff. split; [by exists data|].
    intros (data' & Hp' & Hc). congruence.
  - exists b. split; [done|]. rewrite Hiff. split.
    + intros (person & _ & data & ? & ?). by exists person, data.
    + intros (person & data & Hp & ?). exists person. split; [|by exists data].
      apply (listing_elem_of _ _ _ Hl), elem_of_dom. by eexists.
Qed.

(** C2.  The evidence filter returns a verdict for every candidate, and it
    rejects the candidate exactly when some person of [people] has a known
    observed trait that the candidate contradicts: observed true and not in
    [have_trait], or observed false and in [have_trait].  A person whose
    observed trait is unknown has no say: putting that person into the
    candidate or taking the person out of it leaves the verdict as it is. *)
Theorem fails_evidence_iff (list_of : gset string → list string)
    (people : gmap string person_data) (have_trait : gset string) :
  listing list_of →
  ∃ rejected : bool,
    fails_evidence list_of people have_trait = Some rejected
    ∧ (rejected = true ↔
       ∃ person data, people !! person = Some data ∧
         ((trait data = Some true ∧ person ∉ have_trait) ∨
          (trait data = Some false ∧ person ∈ have_trait)))
    ∧ (∀ person data, people !! person = Some data → trait data = None →
         fails_evidence list_of people (have_trait ∪ {[person]}) = Some rejected
         ∧ fails_evidence list_of people (have_trait ∖ {[person]}) = Some rejected).
Proof.
  intros Hl.
  destruct (fails_evidence_total list_of people have_trait Hl) as (b & Hb & Hiff).
  exists b. split_and!; [done|done|].
  intros person data Hp Hnone.
  assert (∀ have_trait' : gset string,
    (∀ q, q ≠ person → q ∈ have_trait' ↔ q ∈ have_trait) →
    fails_evidence list_of people have_trait' = Some b) as Hsame.
  { intros have_trait' Hagree.
    destruct (fails_evidence_total list_of people have_trait' Hl) as (b' & Hb' & Hiff').
    rewrite Hb'. f_equal.
    assert (b' = true ↔ b = true) as Hbb; [|by destruct b, b'; naive_solver].
    rewrite Hiff, Hiff'.
    split; intros (q & dq & Hq & Hc); exists q, dq; (split; [done|]);
      (assert (q ≠ person) as Hne
         by (intros ->; destruct Hc as [[? _]|[? _]]; congruence));
      unfold contradicted in *; rewrite Hagree in *; done. }
  split; apply Hsame; intros q Hq; set_solver.
Qed.

Lemma fails_evidence_iff_witness :
  let people : gmap string person_data :=
    {[ "James" := {| name := "James"; mother := None; father := None;
                     trait := Some true |};
       "Lily" := {| name := "Lily"; mother := None; father := None;
                    trait := None |} ]} in
  ∃ rejected : bool,
    fails_evidence elements people {[ "James" ]} = Some rejected
    ∧ (rejected = true ↔
       ∃ person data, people !! person = Some data ∧
         ((trait data = Some true ∧ person ∉ ({[ "James" ]} : gset string)) ∨
          (trait data = Some false ∧ person ∈ ({[ "James" ]} : gset string))))
    ∧ (∀ person data, people !! person = Some data → trait data = None →
         fails_evidence elements people ({[ "James" ]} ∪ {[person]}) = Some rejected
         ∧ fails_evidence elements people ({[ "James" ]} ∖ {[person]}) = Some rejected).
Proof.
  intros people.
  apply (fails_evidence_iff elements people {[ "James" ]}).
  intros s. reflexivity.
Defined.

(** ** [update] *)

Lemma lookup_update (probabilities : gmap string distributions)
    (one_gene two_genes have_trait : gset string) (p : Qc) (person : string) :
  update probabilities one_gene two_genes have_trait p !! person
  = update_person one_gene two_genes have_trait p person <$> probabilities !! person.
Proof.
  unfold update. rewrite map_lookup_imap.
  by destruct (probabilities !! person).
Qed.

Lemma gene_sum_add_gene (g : gene_dist) (num_genes : copies) (p : Qc) :
  gene_sum (add_gene g num_genes p) = gene_sum g + p.
Proof. unfold gene_sum. destruct num_genes; simpl; ring. Qed.

Lemma gene_sum_update_person one_gene two_genes have_trait p person d :
  gene_sum (dist_gene (update_person one_gene two_genes have_trait p person d))
  = gene_sum (dist_gene d) + p.
Proof. apply gene_sum_add_gene. Qed.

Lemma trait_sum_update_person one_gene two_genes have_trait p person d :
  trait_sum (dist_trait (update_person one_gene two_genes have_trait p person d))
  = trait_sum (dist_trait d) + p.
Proof.
  unfold trait_sum, update_person. simpl.
  destruct (decide (person ∈ have_trait)).
  - rewrite bool_decide_eq_true_2, bool_decide_eq_false_2 by auto. ring.
  - rewrite bool_decide_eq_false_2, bool_decide_eq_true_2 by auto. ring.
Qed.

Lemma update_all_sums (calls : list (world * Qc))
    (probabilities : gmap string distributions) (person : string) (d : distributions) :
  probabilities !! person = Some d →
  ∃ d', update_all probabilities calls !! person = Some d'
        ∧ gene_sum (dist_gene d') = gene_sum (dist_gene d) + total calls
        ∧ trait_sum (dist_trait d') = trait_sum (dist_trait d) + total calls.
Proof.
  revert probabilities d.
  induction calls as [|[[[one_gene two_genes] have_trait] p] calls IH];
    intros probabilities d Hd; simpl.
  - exists d. split_and!; [done|ring|ring].
  - destruct (IH (update probabilities one_gene two_genes have_trait p)
      (update_person one_gene two_genes have_trait p person d))
      as (d' & Hd' & Hg & Ht).
    { by rewrite lookup_update, Hd. }
    exists d'. split; [done|].
    rewrite Hg, Ht, gene_sum_update_person, trait_sum_update_person.
    split; ring.
Qed.

(** C9, over exact rationals.  With the buckets and [p] exact numbers,
    one call of [update] with [p] changes, for every person of the store,
    exactly one gene bucket and exactly one trait bucket, each by adding
    [p] to it (nothing is subtracted, nothing overwritten), so it adds [p]
    to the sum of the person's gene buckets and [p] to the sum of the
    person's trait buckets.  Hence after any sequence of calls that starts
    from the all-zero store of [main], every person's three gene buckets
    and two trait buckets both sum to the total of the [p].  In the
    binary64 floats of the program every addition rounds and the three
    sums can differ: module [HeredityFloat] has such a run. *)
Theorem update_preserves_equal_sums (people : gmap string person_data)
    (person : string) :
  is_Some (people !! person) →
  (∀ (probabilities : gmap string distributions) (d : distributions)
     (one_gene two_genes have_trait : gset string) (p : Qc),
     probabilities !! person = Some d →
     ∃ d', update probabilities one_gene two_genes have_trait p !! person = Some d'
       ∧ ((copies2 (dist_gene d') = copies2 (dist_gene d) + p
           ∧ copies1 (dist_gene d') = copies1 (dist_gene d)
           ∧ copies0 (dist_gene d') = copies0 (dist_gene d))
          ∨ (copies2 (dist_gene d') = copies2 (dist_gene d)
             ∧ copies1 (dist_gene d') = copies1 (dist_gene d) + p
             ∧ copies0 (dist_gene d') = copies0 (dist_gene d))
          ∨ (copies2 (dist_gene d') = copies2 (dist_gene d)
             ∧ copies1 (dist_gene d') = copies1 (dist_gene d)
             ∧ copies0 (dist_gene d') = copies0 (dist_gene d) + p))
       ∧ ((trait_true (dist_trait d') = trait_true (dist_trait d) + p
           ∧ trait_false (dist_trait d') = trait_false (dist_trait d))
          ∨ (trait_true (dist_trait d') = trait_true (dist_trait d)
             ∧ trait_false (dist_trait d') = trait_false (dist_trait d) + p))
       ∧ gene_sum (dist_gene d') = gene_sum (dist_gene d) + p
       ∧ trait_sum (dist_trait d') = trait_sum (dist_trait d) + p)
  ∧ (∀ calls : list (world * Qc),
       ∃ d, update_all (initial_probabilities people) calls !! person = Some d
         ∧ gene_sum (dist_gene d) = total calls
         ∧ trait_sum (dist_trait d) = total calls
         ∧ gene_sum (dist_gene d) = trait_sum (dist_trait d)).
Proof.
  intros [data Hdata]. split.
  - intros probabilities d one_gene two_genes have_trait p Hd.
    exists (update_person one_gene two_genes have_trait p person d).
    split_and!.
    + by rewrite lookup_update, Hd.
    + unfold update_person. simpl.
      destruct (num_genes_of one_gene two_genes person); simpl; auto.
    + unfold update_person. simpl.
      destruct (decide (person ∈ have_trait)).
      * rewrite bool_decide_eq_true_2, bool_decide_eq_false_2 by auto.
        left. split; [done|ring].
      * rewrite bool_decide_eq_false_2, bool_decide_eq_true_2 by auto.
        right. split; [ring|done].
    + apply gene_sum_update_person.
    + apply trait_sum_update_person.
  - intros calls.
    destruct (update_all_sums calls (initial_probabilities people) person
      zero_distributions) as (d & Hd & Hg & Ht).
    { unfold initial_probabilities. by rewrite lookup_fmap, Hdata. }
    exists d.
    assert (gene_sum (dist_gene zero_distributions) = 0) as Hg0
      by (apply Qc_is_canon; reflexivity).
    assert (trait_sum (dist_trait zero_distributions) = 0) as Ht0
      by (apply Qc_is_canon; reflexivity).
    rewrite Hg0, Qcplus_0_l in Hg. rewrite Ht0, Qcplus_0_l in Ht.
    split_and!; congruence.
Qed.

Lemma update_preserves_equal_sums_witness :
  let people : gmap string person_data :=
    {[ "Harry" := {| name := "Harry"; mother := None; father := None;
                     trait := None |} ]} in
  let calls : list (world * Qc) :=
    [ ((∅, ∅, ∅), Q2Qc (1 # 2)); (({[ "Harry" ]}, ∅, {[ "Harry" ]}), Q2Qc (1 # 4)) ] in
  ∃ d, update_all (initial_probabilities people) calls !! "Harry" = Some d
    ∧ gene_sum (dist_gene d) = total calls
    ∧ trait_sum (dist_trait d) = total calls
    ∧ gene_sum (dist_gene d) = trait_sum (dist_trait d).
Proof.
  intros people calls.
  destruct (update_preserves_equal_sums people "Harry") as [_ Hseq].
  - eexists. reflexivity.
  - apply Hseq.
Defined.

(** ** [normalize] *)

Lemma Qclt_ne_0 (x : Qc) : 0 < x → x ≠ 0.
Proof. intros Hx ->. by apply (irreflexivity Qclt 0). Qed.

Lemma div_Some (x y : Qc) : y ≠ 0 → div x y = Some (x / y).
Proof. intros Hy. unfold div. by rewrite decide_False. Qed.

Lemma normalize_gene_scaled (g : gene_dist) :
  normalize_gene g = Some (scaled_gene g).
Proof.
  unfold normalize_gene, scaled_gene. case_decide as Hs; [|done].
  apply Qclt_ne_0 in Hs. by rewrite !div_Some.
Qed.

Lemma normalize_trait_scaled (t : trait_dist) :
  normalize_trait t = Some (scaled_trait t).
Proof.
  unfold normalize_trait, scaled_trait. case_decide as Hs; [|done].
  apply Qclt_ne_0 in Hs. by rewrite !div_Some.
Qed.

Lemma normalize_person_scaled (d : distributions) :
  normalize_person d = Some (scaled d).
Proof.
  unfold normalize_person. by rewrite normalize_gene_scaled, normalize_trait_scaled.
Qed.

(** No division of [normalize] raises, and each entry is replaced by its
    scaled version. *)
Lemma normalize_scaled (probabilities : gmap string distributions) :
  normalize probabilities = Some (scaled <$> probabilities).
Proof.
  unfold normalize.
  assert (∀ m : gmap string distributions,
    map_fold (λ person d store,
        probabilities ← store; d' ← normalize_person d;
        Some (<[person := d']> probabilities))
      (Some probabilities) m
    = Some ((scaled <$> m) ∪ probabilities)) as Hfold.
  { apply (map_fold_weak_ind
      (λ r m, r = Some ((scaled <$> m) ∪ probabilities))).
    - by rewrite fmap_empty, (left_id_L ∅ (∪)).
    - intros person d m r _ ->. simpl.
      rewrite normalize_person_scaled. simpl.
      by rewrite fmap_insert, insert_union_l. }
  rewrite Hfold. f_equal. apply map_eq. intros person.
  rewrite lookup_union, lookup_fmap. by destruct (probabilities !! person).
Qed.

Lemma gene_sum_scaled (g : gene_dist) :
  0 < gene_sum g → gene_sum (scaled_gene g) = 1.
Proof.
  intros Hs. unfold scaled_gene. rewrite decide_True by done.
  apply Qclt_ne_0 in Hs. unfold gene_sum in *. simpl.
  rewrite Qcplus_0_l in Hs. by field.
Qed.

Lemma trait_sum_scaled (t : trait_dist) :
  0 < trait_sum t → trait_sum (scaled_trait t) = 1.
Proof.
  intros Hs. unfold scaled_trait. rewrite decide_True by done.
  apply Qclt_ne_0 in Hs. unfold trait_sum in *. simpl.
  rewrite Qcplus_0_l in Hs. by field.
Qed.

Lemma Qc_0_lt_1 : (0 : Qc) < 1.
Proof. compute_done. Qed.

Lemma scaled_gene_idemp (g : gene_dist) : scaled_gene (scaled_gene g) = scaled_gene g.
Proof.
  destruct (decide (0 < gene_sum g)) as [Hs|Hs].
  - pose proof (gene_sum_scaled g Hs) as H1.
    unfold scaled_gene at 1. rewrite H1, decide_True by apply Qc_0_lt_1.
    destruct (scaled_gene g) as [c2 c1 c0]. simpl.
    f_equal; field; compute_done.
  - assert (scaled_gene g = g) as Hg
      by (unfold scaled_gene; by rewrite decide_False).
    by rewrite !Hg.
Qed.

Lemma scaled_trait_idemp (t : trait_dist) :
  scaled_trait (scaled_trait t) = scaled_trait t.
Proof.
  destruct (decide (0 < trait_sum t)) as [Hs|Hs].
  - pose proof (trait_sum_scaled t Hs) as H1.
    unfold scaled_trait at 1. rewrite H1, decide_True by apply Qc_0_lt_1.
    destruct (scaled_trait t) as [tt tf]. simpl.
    f_equal; field; compute_done.
  - assert (scaled_trait t = t) as Hg
      by (unfold scaled_trait; by rewrite decide_False).
    by rewrite !Hg.
Qed.

Lemma Qc_nonneg_sum_0 (x y : Qc) : 0 ≤ x → 0 ≤ y → x + y = 0 → x = 0 ∧ y = 0.
Proof.
  intros Hx Hy Hxy.
  assert (x ≤ 0) as Hx'.
  { rewrite <-Hxy. rewrite <-(Qcplus_0_r x) at 1. by apply Qcplus_le_mono_l. }
  assert (x = 0) as -> by (by apply (anti_symm Qcle)).
  split; [done|]. by rewrite Qcplus_0_l in Hxy.
Qed.

Lemma gene_dist_all_zero (g : gene_dist) :
  0 ≤ copies2 g → 0 ≤ copies1 g → 0 ≤ copies0 g → gene_sum g = 0 →
  g = {| copies2 := 0; copies1 := 0; copies0 := 0 |}.
Proof.
  destruct g as [c2 c1 c0]. unfold gene_sum. simpl. rewrite Qcplus_0_l.
  intros H2 H1 H0 Hs.
  apply Qc_nonneg_sum_0 in Hs as [Hs ->]; [|by apply Qcplus_nonneg_nonneg|done].
  by apply Qc_nonneg_sum_0 in Hs as [-> ->].
Qed.

Lemma trait_dist_all_zero (t : trait_dist) :
  0 ≤ trait_true t → 0 ≤ trait_false t → trait_sum t = 0 →
  t = {| trait_true := 0; trait_false := 0 |}.
Proof.
  destruct t as [tt tf]. unfold trait_sum. simpl. rewrite Qcplus_0_l.
  intros H1 H0 Hs. by apply Qc_nonneg_sum_0 in Hs as [-> ->].
Qed.

(** C3.  [normalize] returns for every store: no division by zero occurs.
    For every person of the store and each of the person's two
    distributions, when the sum of the buckets is strictly positive every
    bucket is divided by that sum and the distribution then sums to 1;
    when the sum is zero the distribution is left as it is, which for
    accumulated buckets (none of them negative) is all-zero. *)
Theorem normalize_sums_to_one (probabilities : gmap string distributions)
    (person : string) (d : distributions) :
  probabilities !! person = Some d →
  ∃ (normalized : gmap string distributions) (d' : distributions),
    normalize probabilities = Some normalized
    ∧ normalized !! person = Some d'
    ∧ (0 < gene_sum (dist_gene d) →
         copies2 (dist_gene d') = copies2 (dist_gene d) / gene_sum (dist_gene d)
         ∧ copies1 (dist_gene d') = copies1 (dist_gene d) / gene_sum (dist_gene d)
         ∧ copies0 (dist_gene d') = copies0 (dist_gene d) / gene_sum (dist_gene d)
         ∧ gene_sum (dist_gene d') = 1)
    ∧ (gene_sum (dist_gene d) = 0 →
         dist_gene d' = dist_gene d
         ∧ (0 ≤ copies2 (dist_gene d) → 0 ≤ copies1 (dist_gene d) →
            0 ≤ copies0 (dist_gene d) →
            dist_gene d' = {| copies2 := 0; copies1 := 0; copies0 := 0 |}))
    ∧ (0 < trait_sum (dist_trait d) →
         trait_true (dist_trait d') = trait_true (dist_trait d) / trait_sum (dist_trait d)
         ∧ trait_false (dist_trait d') = trait_false (dist_trait d) / trait_sum (dist_trait d)
         ∧ trait_sum (dist_trait d') = 1)
    ∧ (trait_sum (dist_trait d) = 0 →
         dist_trait d' = dist_trait d
         ∧ (0 ≤ trait_true (dist_trait d) → 0 ≤ trait_false (dist_trait d) →
            dist_trait d' = {| trait_true := 0; trait_false := 0 |})).
Proof.
  intros Hd. exists (scaled <$> probabilities), (scaled d).
  split_and!.
  - apply normalize_scaled.
  - by rewrite lookup_fmap, Hd.
  - intros Hs. pose proof (gene_sum_scaled _ Hs) as H1.
    simpl. unfold scaled_gene in *. rewrite decide_True in * by done. done.
  - intros Hs.
    assert (scaled_gene (dist_gene d) = dist_gene d) as Hg.
    { unfold scaled_gene. rewrite decide_False; [done|].
      rewrite Hs. apply (irreflexivity Qclt). }
    simpl. rewrite Hg. split; [done|]. intros. by apply gene_dist_all_zero.
  - intros Hs. pose proof (trait_sum_scaled _ Hs) as H1.
    simpl. unfold scaled_trait in *. rewrite decide_True in * by done. done.
  - intros Hs.
    assert (scaled_trait (dist_trait d) = dist_trait d) as Hg.
    { unfold scaled_trait. rewrite decide_False; [done|].
      rewrite Hs. apply (irreflexivity Qclt). }
    simpl. rewrite Hg. split; [done|]. intros. by apply trait_dist_all_zero.
Qed.

Lemma normalize_sums_to_one_witness :
  let d := {| dist_gene := {| copies2 := 1; copies1 := 1; copies0 := 2 |};
              dist_trait := {| trait_true := 0; trait_false := 0 |} |} in
  ∃ (normalized : gmap string distributions) (d' : distributions),
    normalize {[ "Harry" := d ]} = Some normalized
    ∧ normalized !! "Harry" = Some d'
    ∧ gene_sum (dist_gene d') = 1
    ∧ dist_trait d' = {| trait_true := 0; trait_false := 0 |}.
Proof.
  intros d.
  destruct (normalize_sums_to_one {[ "Harry" := d ]} "Harry" d)
    as (normalized & d' & Hn & Hd' & Hg & _ & _ & Ht); [reflexivity|].
  exists normalized, d'. split_and!; [done|done| |].
  - apply Hg. vm_compute. reflexivity.
  - apply Ht; [apply Qc_is_canon | |]; vm_compute; [reflexivity| |]; discriminate.
Defined.

(** C10.  [normalize] is idempotent: for every store, normalizing the
    normalized store returns the normalized store. *)
Theorem normalize_idempotent (probabilities : gmap string distributions) :
  ∃ normalized : gmap string distributions,
    normalize probabilities = Some normalized
    ∧ normalize normalized = Some normalized.
Proof.
  exists (scaled <$> probabilities). split; [apply normalize_scaled|].
  rewrite normalize_scaled. f_equal.
  rewrite <-map_fmap_compose. apply map_fmap_ext.
  intros person [g t] _. unfold scaled, compose. simpl.
  by rewrite scaled_gene_idemp, scaled_trait_idemp.
Qed.

(** ** [powerset] and the enumeration of the worlds *)

Local Open Scope nat_scope.

Lemma combinations_too_long {A} (s : list A) (r : nat) :
  length s < r → combinations s r = [].
Proof.
  revert r. induction s as [|x s IH]; intros [|r] Hr; simpl in *; try lia; [done|].
  rewrite !IH by lia. done.
Qed.

Lemma subsets_of_size_too_long (s : list string) (r : nat) :
  length s < r → subsets_of_size s r = [].
Proof. intros Hr. unfold subsets_of_size. by rewrite combinations_too_long. Qed.

Lemma subsets_of_size_0 (s : list string) : subsets_of_size s 0 = [∅].
Proof. by destruct s. Qed.

Lemma subsets_of_size_cons (x : string) (s : list string) (r : nat) :
  subsets_of_size (x :: s) (S r)
  = (({[x]} ∪.) <$> subsets_of_size s r) ++ subsets_of_size s (S r).
Proof.
  unfold subsets_of_size. simpl combinations.
  rewrite fmap_app, <-!list_fmap_compose. done.
Qed.

Lemma fmap_bind_list {A B C} (f : B → C) (g : A → list B) (l : list A) :
  f <$> (l ≫= g) = l ≫= (λ x, f <$> g x).
Proof.
  induction l as [|x l IH]; [done|].
  by rewrite !bind_cons, fmap_app, IH.
Qed.

Lemma powerset_of_list_by_size (s : list string) :
  powerset_of_list s = seq 0 (S (length s)) ≫= subsets_of_size s.
Proof.
  unfold powerset_of_list. rewrite fmap_bind_list.
  by replace (length s + 1) with (S (length s)) by lia.
Qed.

Lemma subsets_by_size_cons (x : string) (s : list string) (k : nat) :
  seq 0 k ≫= (λ r, subsets_of_size (x :: s) (S r))
  ≡ₚ (({[x]} ∪.) <$> (seq 0 k ≫= subsets_of_size s))
     ++ (seq 1 k ≫= subsets_of_size s).
Proof.
  induction k as [|k IH]; [done|].
  rewrite !seq_S, !bind_app, !bind_singleton, IH, subsets_of_size_cons.
  rewrite fmap_app. simpl.
  rewrite <-!(assoc_L (++)). f_equiv.
  rewrite !(assoc_L (++)). f_equiv. apply (comm (++)).
Qed.

(** Up to the order of the list, the subsets of [x :: s] are the subsets of
    [s] followed by the same subsets with [x] added. *)
Lemma powerset_of_list_cons (x : string) (s : list string) :
  powerset_of_list (x :: s)
  ≡ₚ powerset_of_list s ++ (({[x]} ∪.) <$> powerset_of_list s).
Proof.
  rewrite !powerset_of_list_by_size. simpl length.
  rewrite (seq_S (S (length s))) at 1.
  change (seq 0 (S (length s)) ++ [0 + S (length s)])
    with (0 :: (seq 1 (length s) ++ [S (length s)])).
  rewrite <-seq_S, bind_cons, <-fmap_S_seq, list_fmap_bind.
  change (subsets_of_size (x :: s) 0) with ([∅] : list (gset string)).
  rewrite (list_bind_ext _ (λ r, subsets_of_size (x :: s) (S r))
    (seq 0 (S (length s))) (seq 0 (S (length s)))) by done.
  rewrite subsets_by_size_cons.
  rewrite (seq_S (length s) 1), bind_app, bind_singleton.
  rewrite subsets_of_size_too_long, (right_id_L [] (++)) by lia.
  change (seq 0 (S (length s))) with (0 :: seq 1 (length s)) at 2.
  rewrite bind_cons.
  rewrite subsets_of_size_0.
  by rewrite (comm (++) (_ <$> _)), (assoc_L (++)).
Qed.

Lemma powerset_of_list_nil : powerset_of_list [] = [∅].
Proof. done. Qed.

Lemma length_powerset_of_list (s : list string) :
  length (powerset_of_list s) = 2 ^ length s.
Proof.
  induction s as [|x s IH]; [done|].
  rewrite powerset_of_list_cons, length_app, length_fmap, IH.
  simpl. lia.
Qed.

Lemma elem_of_powerset_of_list (s : list string) (X : gset string) :
  X ∈ powerset_of_list s ↔ X ⊆ list_to_set s.
Proof.
  revert X. induction s as [|x s IH]; intros X.
  - rewrite powerset_of_list_nil, list_elem_of_singleton, list_to_set_nil.
    set_solver.
  - rewrite powerset_of_list_cons, elem_of_app, list_elem_of_fmap, list_to_set_cons.
    setoid_rewrite IH. split.
    + intros [HX|(Y & -> & HY)]; set_solver.
    + intros HX. destruct (decide (x ∈ X)) as [Hx|Hx].
      * right. exists (X ∖ {[x]}). split; [|set_solver].
        by apply union_difference_singleton_L.
      * left. set_solver.
Qed.

Lemma NoDup_powerset_of_list (s : list string) :
  NoDup s → NoDup (powerset_of_list s).
Proof.
  induction 1 as [|x s Hx Hs IH].
  - rewrite powerset_of_list_nil. apply NoDup_singleton.
  - rewrite powerset_of_list_cons. apply NoDup_app. split_and!; [done| |].
    + intros X HX (Y & -> & HY)%list_elem_of_fmap.
      apply elem_of_powerset_of_list in HX.
      assert (x ∈ (list_to_set s : gset string)) as Hin by set_solver.
      by apply elem_of_list_to_set in Hin.
    + apply NoDup_fmap_2_strong; [|done].
      intros Y1 Y2 H1%elem_of_powerset_of_list H2%elem_of_powerset_of_list Heq.
      assert (x ∉ (list_to_set s : gset string)) by (by rewrite elem_of_list_to_set).
      set_solver.
Qed.

Lemma length_bind_list {A B} (f : A → list B) (l : list A) :
  length (l ≫= f) = sum_list_with (λ x, length (f x)) l.
Proof.
  induction l as [|x l IH]; [done|].
  rewrite bind_cons, length_app, IH. done.
Qed.

Lemma sum_list_with_scale {A} (f g : A → nat) (c : nat) (l : list A) :
  (∀ x, x ∈ l → f x = c * g x) →
  sum_list_with f l = c * sum_list_with g l.
Proof.
  induction l as [|x l IH]; intros Hfg; simpl; [lia|].
  rewrite Hfg, IH; [lia| |apply list_elem_of_here].
  intros y Hy. by apply Hfg, list_elem_of_further.
Qed.

Lemma sum_list_with_fmap {A B} (f : B → nat) (g : A → B) (l : list A) :
  sum_list_with f (g <$> l) = sum_list_with (f ∘ g) l.
Proof. induction l as [|x l IH]; [done|]. rewrite fmap_cons. simpl. by rewrite IH. Qed.

(** The count behind [3 ^ n]: over the subsets [one_gene] of the people
    listed in [s], the numbers of subsets of what is left of [names]. *)
Lemma sum_subsets_of_rest (s : list string) (names : gset string) :
  NoDup s → list_to_set s ⊆ names →
  sum_list_with (λ one_gene, 2 ^ size (names ∖ one_gene)) (powerset_of_list s)
  = 3 ^ length s * 2 ^ (size names - length s).
Proof.
  intros Hs. revert names. induction Hs as [|x s Hx Hs IH]; intros names Hsub.
  - rewrite powerset_of_list_nil. simpl.
    rewrite difference_empty_L. rewrite Nat.sub_0_r. lia.
  - rewrite list_to_set_cons in Hsub.
    assert (x ∉ (list_to_set s : gset string)) as Hx'
      by (by rewrite elem_of_list_to_set).
    rewrite powerset_of_list_cons, sum_list_with_app, sum_list_with_fmap.
    rewrite (sum_list_with_scale _
      (λ one_gene, 2 ^ size ((names ∖ {[x]}) ∖ one_gene)) 2 (powerset_of_list s)).
    2:{ intros one_gene Hog%elem_of_powerset_of_list.
        replace (names ∖ one_gene)
          with ({[x]} ∪ ((names ∖ {[x]}) ∖ one_gene)).
        - rewrite size_union, size_singleton by set_solver. done.
        - apply set_eq. intros y. destruct (decide (y = x)); set_solver. }
    rewrite (sum_list_with_scale (_ ∘ _)
      (λ one_gene, 2 ^ size ((names ∖ {[x]}) ∖ one_gene)) 1 (powerset_of_list s)).
    2:{ intros one_gene _. unfold compose.
        rewrite difference_difference_l_L. lia. }
    rewrite IH by set_solver.
    rewrite size_difference, size_singleton by set_solver.
    simpl length.
    replace (size names - S (length s)) with (size names - 1 - length s) by lia.
    rewrite Nat.pow_succ_r'. lia.
Qed.

Section enumeration.
Context (list_of : gset string → list string) (Hlisting : listing list_of).

Lemma elem_of_powerset (s X : gset string) :
  X ∈ powerset list_of s ↔ X ⊆ s.
Proof.
  unfold powerset. by rewrite elem_of_powerset_of_list, listing_to_set.
Qed.

Lemma NoDup_powerset (s : gset string) : NoDup (powerset list_of s).
Proof. by apply NoDup_powerset_of_list, listing_NoDup. Qed.

Lemma length_powerset (s : gset string) :
  length (powerset list_of s) = 2 ^ size s.
Proof.
  unfold powerset. by rewrite length_powerset_of_list, listing_length.
Qed.

Lemma elem_of_gene_worlds (names one_gene two_genes : gset string) :
  (one_gene, two_genes) ∈ gene_worlds list_of names
  ↔ one_gene ⊆ names ∧ two_genes ⊆ names ∖ one_gene.
Proof.
  unfold gene_worlds. rewrite list_elem_of_bind. split.
  - intros (og & (tg & Hin%list_elem_of_singleton & Htg)%list_elem_of_bind & Hog).
    injection Hin as -> ->.
    by rewrite <-!elem_of_powerset.
  - intros [Hog Htg]. exists one_gene. rewrite list_elem_of_bind, elem_of_powerset.
    split; [|done]. exists two_genes.
    by rewrite list_elem_of_singleton, elem_of_powerset.
Qed.

Lemma NoDup_gene_worlds (names : gset string) :
  NoDup (gene_worlds list_of names).
Proof.
  unfold gene_worlds. apply NoDup_bind; [| |apply NoDup_powerset].
  - intros og1 og2 [og tg] _ _
      (tg1 & ?%list_elem_of_singleton & _)%list_elem_of_bind
      (tg2 & ?%list_elem_of_singleton & _)%list_elem_of_bind.
    congruence.
  - intros og _. apply NoDup_bind; [| |apply NoDup_powerset].
    + intros tg1 tg2 [og' tg] _ _
        ?%list_elem_of_singleton ?%list_elem_of_singleton.
      congruence.
    + intros tg _. apply NoDup_singleton.
Qed.

Lemma length_gene_worlds (names : gset string) :
  length (gene_worlds list_of names) = 3 ^ size names.
Proof.
  unfold gene_worlds. rewrite length_bind_list.
  rewrite (sum_list_with_scale _ (λ one_gene, 2 ^ size (names ∖ one_gene)) 1).
  2:{ intros one_gene _. rewrite length_bind_list.
      rewrite (sum_list_with_scale _ (λ _, 1) 1) by done.
      rewrite Nat.mul_1_l, Nat.mul_1_l.
      rewrite <-length_powerset.
      generalize (powerset list_of (names ∖ one_gene)).
      intros l. induction l; simpl; lia. }
  unfold powerset. rewrite sum_subsets_of_rest.
  - rewrite listing_length, Nat.sub_diag by done. simpl. lia.
  - by apply listing_NoDup.
  - by rewrite listing_to_set.
Qed.

End enumeration.

Lemma filter_all {A} (P : A → Prop) `{!∀ x, Decision (P x)} (l : list A) :
  (∀ x, x ∈ l → P x) → filter P l = l.
Proof.
  induction l as [|x l IH]; intros HP; [done|].
  rewrite filter_cons_True by apply HP, list_elem_of_here.
  f_equal. apply IH. intros y Hy. by apply HP, list_elem_of_further.
Qed.

Lemma filter_none {A} (P : A → Prop) `{!∀ x, Decision (P x)} (l : list A) :
  (∀ x, x ∈ l → ¬ P x) → filter P l = [].
Proof.
  induction l as [|x l IH]; intros HP; [done|].
  rewrite filter_cons_False by apply HP, list_elem_of_here.
  apply IH. intros y Hy. by apply HP, list_elem_of_further.
Qed.

Lemma mapM_total {A B} (f : A → option B) (g : A → B) (l : list A) :
  (∀ x, f x = Some (g x)) → mapM f l = Some (g <$> l).
Proof.
  intros Hfg. induction l as [|x l IH]; [done|].
  simpl. rewrite Hfg, IH. done.
Qed.

Lemma concat_fmap_bind {A B} (f : A → list B) (l : list A) :
  concat (f <$> l) = l ≫= f.
Proof. induction l as [|x l IH]; [done|]. rewrite fmap_cons, bind_cons. simpl. by rewrite IH. Qed.

Section worlds.
Context (list_of : gset string → list string) (Hlisting : listing list_of).
Context (people : gmap string person_data).

Lemma elem_of_worlds_of_trait (have_trait : gset string) (w : world) :
  w ∈ worlds_of_trait list_of people have_trait
  ↔ w.2 = have_trait
    ∧ fails_evidence list_of people have_trait = Some false
    ∧ (w.1.1, w.1.2) ∈ gene_worlds list_of (dom people).
Proof.
  unfold worlds_of_trait. destruct w as [[og tg] ht]. simpl. case_decide as Hf.
  - rewrite list_elem_of_fmap. split.
    + intros ([og' tg'] & [= -> -> ->] & Hin). done.
    + intros (-> & _ & Hin). by exists (og, tg).
  - split; [by intros ?%not_elem_of_nil|]. by intros (_ & ? & _).
Qed.

Lemma NoDup_worlds_of_trait (have_trait : gset string) :
  NoDup (worlds_of_trait list_of people have_trait).
Proof.
  unfold worlds_of_trait. case_decide; [|apply NoDup_nil_2].
  apply NoDup_fmap_2_strong; [|by apply NoDup_gene_worlds].
  intros [og1 tg1] [og2 tg2] _ _ [= -> ->]. done.
Qed.

Lemma length_worlds_of_trait (have_trait : gset string) :
  fails_evidence list_of people have_trait = Some false →
  length (worlds_of_trait list_of people have_trait) = 3 ^ size (dom people).
Proof.
  intros Hf. unfold worlds_of_trait. rewrite decide_True by done.
  by rewrite length_fmap, length_gene_worlds.
Qed.

(** The evidence filter never raises, so the enumeration is the chain of
    the closed forms. *)
Lemma worlds_total :
  worlds list_of people
  = Some (powerset list_of (dom people) ≫= worlds_of_trait list_of people).
Proof.
  unfold worlds.
  rewrite (mapM_total _ (worlds_of_trait list_of people));
    [simpl; by rewrite concat_fmap_bind|].
  intros have_trait. unfold worlds_of_trait.
  destruct (fails_evidence_total list_of people have_trait Hlisting)
    as ([] & -> & _);
    [rewrite decide_False by done | rewrite decide_True by done]; done.
Qed.

Lemma filter_worlds_of_trait (have_trait : gset string) (l : list (gset string)) :
  NoDup l → have_trait ∈ l →
  filter (λ w : world, w.2 = have_trait) (l ≫= worlds_of_trait list_of people)
  = worlds_of_trait list_of people have_trait.
Proof.
  assert (∀ l : list (gset string), have_trait ∉ l →
    filter (λ w : world, w.2 = have_trait) (l ≫= worlds_of_trait list_of people)
    = []) as Hnone.
  { intros l' Hl'. apply filter_none.
    intros w (ht & (Hw & _)%elem_of_worlds_of_trait & Hht)%list_elem_of_bind Heq.
    congruence. }
  induction 1 as [|ht l Hht Hl IH]; intros Hin; [by apply not_elem_of_nil in Hin|].
  rewrite bind_cons, filter_app.
  destruct (decide (ht = have_trait)) as [->|Hne].
  - rewrite Hnone by done. rewrite (right_id_L [] (++)).
    apply filter_all. by intros w (Hw & _)%elem_of_worlds_of_trait.
  - rewrite filter_none, IH; [done| |].
    + apply elem_of_cons in Hin as [?|?]; congruence.
    + intros w (Hw & _)%elem_of_worlds_of_trait. congruence.
Qed.

End worlds.

(** C5.  For a set [names] of [n] people, the two inner loops of [main],
    which run once for every trait subset that passes the evidence filter,
    reach exactly the pairs [(one_gene, two_genes)] with [one_gene] a
    subset of the people and [two_genes] a subset of the people not in
    [one_gene], each pair once: [3 ^ n] pairs, none twice, none missed.
    Over all of [main], the worlds reached are exactly the triples of such
    a pair with a trait subset that the filter accepts, each triple once. *)
Theorem gene_worlds_exactly_once (list_of : gset string → list string)
    (people : gmap string person_data) :
  listing list_of →
  let names := dom people in
  (∀ one_gene two_genes,
     (one_gene, two_genes) ∈ gene_worlds list_of names
     ↔ one_gene ⊆ names ∧ two_genes ⊆ names ∖ one_gene)
  ∧ NoDup (gene_worlds list_of names)
  ∧ length (gene_worlds list_of names) = 3 ^ size names
  ∧ ∃ ws, worlds list_of people = Some ws
      ∧ NoDup ws
      ∧ (∀ one_gene two_genes have_trait,
           (one_gene, two_genes, have_trait) ∈ ws
           ↔ have_trait ⊆ names
             ∧ fails_evidence list_of people have_trait = Some false
             ∧ one_gene ⊆ names ∧ two_genes ⊆ names ∖ one_gene)
      ∧ (∀ have_trait,
           have_trait ⊆ names →
           fails_evidence list_of people have_trait = Some false →
           length (filter (λ w, w.2 = have_trait) ws) = 3 ^ size names).
Proof.
  intros Hl names. split_and!.
  - intros one_gene two_genes. by apply elem_of_gene_worlds.
  - by apply NoDup_gene_worlds.
  - by apply length_gene_worlds.
  - eexists. split; [by apply worlds_total|]. split_and!.
    + apply NoDup_bind; [| |by apply NoDup_powerset].
      * intros ht1 ht2 w _ _ (H1 & _)%elem_of_worlds_of_trait
          (H2 & _)%elem_of_worlds_of_trait.
        congruence.
      * intros ht _. by apply NoDup_worlds_of_trait.
    + intros one_gene two_genes have_trait.
      rewrite list_elem_of_bind. setoid_rewrite elem_of_worlds_of_trait.
      setoid_rewrite (elem_of_powerset list_of Hl). simpl.
      setoid_rewrite (elem_of_gene_worlds list_of Hl). subst names. split.
      * intros (ht & (<- & ? & ?) & ?). done.
      * intros (? & ? & ?). by exists have_trait.
    + intros have_trait Hsub Hf.
      rewrite filter_worlds_of_trait;
        [by apply length_worlds_of_trait|by apply NoDup_powerset|].
      by apply elem_of_powerset.
Qed.

Lemma gene_worlds_exactly_once_witness :
  let people : gmap string person_data :=
    {[ "James" := {| name := "James"; mother := None; father := None;
                     trait := Some true |};
       "Lily" := {| name := "Lily"; mother := None; father := None;
                    trait := None |} ]} in
  length (gene_worlds elements (dom people)) = 9
  ∧ ∃ ws, worlds elements people = Some ws ∧ NoDup ws.
Proof.
  intros people.
  destruct (gene_worlds_exactly_once elements people)
    as (_ & _ & Hlen & ws & Hws & Hnodup & _).
  - intros s. reflexivity.
  - split.
    + rewrite Hlen. vm_compute. reflexivity.
    + exists ws. split; assumption.
Defined.

(** ** The whole of [main] on a single founder *)

Local Open Scope Qc_scope.

Section single_founder.
Context (list_of : gset string → list string) (Hlisting : listing list_of).
Context (person : string).

Lemma list_of_singleton : list_of {[person]} = [person].
Proof.
  apply Permutation_singleton_r.
  by rewrite (Hlisting {[person]}), elements_singleton.
Qed.

Lemma list_of_empty : list_of ∅ = [].
Proof. apply Permutation_nil_r. by rewrite (Hlisting ∅), elements_empty. Qed.

Lemma powerset_empty : powerset list_of ∅ = [∅].
Proof. unfold powerset. by rewrite list_of_empty. Qed.

Lemma powerset_singleton : powerset list_of {[person]} = [∅; {[person]}].
Proof.
  unfold powerset. rewrite list_of_singleton.
  unfold powerset_of_list. simpl.
  by rewrite (right_id_L ∅ (∪)).
Qed.

Lemma gene_worlds_singleton :
  gene_worlds list_of {[person]}
  = [(∅, ∅); (∅, {[person]}); ({[person]}, ∅)].
Proof.
  unfold gene_worlds. rewrite powerset_singleton.
  csimpl.
  rewrite difference_empty_L, difference_diag_L.
  by rewrite powerset_singleton, powerset_empty.
Qed.

Lemma fails_evidence_singleton (data : person_data) (have_trait : gset string) :
  fails_evidence list_of {[person := data]} have_trait
  = Some (match trait data with
          | None => false
          | Some t => negb (eqb t (bool_decide (person ∈ have_trait)))
          end).
Proof.
  unfold fails_evidence. rewrite dom_singleton_L, list_of_singleton.
  simpl. unfold contradicts. rewrite lookup_singleton_eq. simpl.
  by destruct (match trait data with None => _ | Some _ => _ end).
Qed.

Lemma update_singleton (d : distributions)
    (one_gene two_genes have_trait : gset string) (p : Qc) :
  update {[person := d]} one_gene two_genes have_trait p
  = {[person := update_person one_gene two_genes have_trait p person d]}.
Proof.
  apply map_eq. intros q. rewrite lookup_update.
  destruct (decide (q = person)) as [->|Hq].
  - by rewrite !lookup_singleton_eq.
  - by rewrite !lookup_singleton_ne.
Qed.

Lemma in_empty_false : bool_decide (person ∈ (∅ : gset string)) = false.
Proof. by apply bool_decide_eq_false_2, not_elem_of_empty. Qed.

Lemma in_singleton_true : bool_decide (person ∈ ({[person]} : gset string)) = true.
Proof. by apply bool_decide_eq_true_2, elem_of_singleton. Qed.

Lemma not_in_empty_true : bool_decide (person ∉ (∅ : gset string)) = true.
Proof. by apply bool_decide_eq_true_2, not_elem_of_empty. Qed.

Lemma not_in_singleton_false :
  bool_decide (person ∉ ({[person]} : gset string)) = false.
Proof.
  apply bool_decide_eq_false_2. intros H. by apply H, elem_of_singleton.
Qed.

Lemma worlds_of_trait_founder (observed : option bool) (have_trait : gset string) :
  worlds_of_trait list_of {[person := founder person observed]} have_trait
  = if match observed with
       | None => false
       | Some t => negb (eqb t (bool_decide (person ∈ have_trait)))
       end
    then []
    else [(∅, ∅, have_trait); (∅, {[person]}, have_trait);
          ({[person]}, ∅, have_trait)].
Proof.
  unfold worlds_of_trait. rewrite fails_evidence_singleton by done. 
  simpl.
  destruct (match observed with None => _ | Some _ => _ end).
  - by rewrite decide_False.
  - rewrite decide_True by done.
    rewrite dom_singleton_L, gene_worlds_singleton by done.
    reflexivity.
Qed.

Lemma worlds_founder (observed : option bool) :
  worlds list_of {[person := founder person observed]}
  = Some (worlds_of_trait list_of {[person := founder person observed]} ∅
          ++ worlds_of_trait list_of {[person := founder person observed]}
               {[person]}).
Proof.
  rewrite worlds_total by done.
  rewrite dom_singleton_L, powerset_singleton by done. 
  rewrite bind_cons, bind_singleton.
  reflexivity.
Qed.

Lemma accumulate_founder (observed : option bool) (ws : list world)
    (d : distributions) :
  foldl (accumulate {[person := founder person observed]}) {[person := d]} ws
  = {[person :=
       foldl (λ d (w : world),
                update_person w.1.1 w.1.2 w.2
                  (person_factor w.1.1 w.1.2 w.2 person (founder person observed))
                  person d)
         d ws]}.
Proof.
  revert d. induction ws as [|[[og tg] ht] ws IH]; intros d; [reflexivity|].
  cbn [foldl accumulate]. rewrite update_singleton, joint_probability_singleton. apply IH.
Qed.

Lemma main_founder (observed : option bool) :
  main list_of {[person := founder person observed]}
  = Some {[person :=
       scaled
         (foldl (λ d (w : world),
                   update_person w.1.1 w.1.2 w.2
                     (person_factor w.1.1 w.1.2 w.2 person (founder person observed))
                     person d)
            zero_distributions
            (worlds_of_trait list_of {[person := founder person observed]} ∅
             ++ worlds_of_trait list_of {[person := founder person observed]}
                  {[person]}))]}.
Proof.
  unfold main. rewrite worlds_founder. cbn [mbind option_bind].
  unfold initial_probabilities. rewrite map_fmap_singleton.
  rewrite accumulate_founder, normalize_scaled, map_fmap_singleton. reflexivity.
Qed.

Lemma num_genes_of_neither : num_genes_of ∅ ∅ person = Zero.
Proof.
  unfold num_genes_of. rewrite !bool_decide_eq_false_2; [done|..];
    apply not_elem_of_empty.
Qed.

Lemma num_genes_of_two_genes : num_genes_of ∅ {[person]} person = Two.
Proof.
  unfold num_genes_of.
  rewrite bool_decide_eq_false_2 by apply not_elem_of_empty.
  rewrite bool_decide_eq_true_2; [done|]. by apply elem_of_singleton.
Qed.

Lemma num_genes_of_one_gene : num_genes_of {[person]} ∅ person = One.
Proof.
  unfold num_genes_of.
  rewrite bool_decide_eq_true_2; [done|]. by apply elem_of_singleton.
Qed.

Lemma update_person_without_trait (one_gene two_genes : gset string) (p : Qc)
    (d : distributions) :
  update_person one_gene two_genes ∅ p person d
  = {| dist_gene := add_gene (dist_gene d) (num_genes_of one_gene two_genes person) p;
       dist_trait := {| trait_true := trait_true (dist_trait d) + 0;
                        trait_false := trait_false (dist_trait d) + p |} |}.
Proof.
  unfold update_person.
  rewrite bool_decide_eq_false_2 by apply not_elem_of_empty.
  rewrite bool_decide_eq_true_2 by apply not_elem_of_empty. done.
Qed.

Lemma update_person_with_trait (one_gene two_genes : gset string) (p : Qc)
    (d : distributions) :
  update_person one_gene two_genes {[person]} p person d
  = {| dist_gene := add_gene (dist_gene d) (num_genes_of one_gene two_genes person) p;
       dist_trait := {| trait_true := trait_true (dist_trait d) + p;
                        trait_false := trait_false (dist_trait d) + 0 |} |}.
Proof.
  unfold update_person.
  rewrite bool_decide_eq_true_2 by (by apply elem_of_singleton).
  rewrite bool_decide_eq_false_2; [done|].
  intros Hn. by apply Hn, elem_of_singleton.
Qed.

Lemma person_factor_founder_without_trait (one_gene two_genes : gset string)
    (observed : option bool) :
  person_factor one_gene two_genes ∅ person (founder person observed)
  = PROBS_gene (num_genes_of one_gene two_genes person)
    * PROBS_trait (num_genes_of one_gene two_genes person) false.
Proof.
  unfold person_factor.
  rewrite bool_decide_eq_false_2 by apply not_elem_of_empty. done.
Qed.

Lemma person_factor_founder_with_trait (one_gene two_genes : gset string)
    (observed : option bool) :
  person_factor one_gene two_genes {[person]} person (founder person observed)
  = PROBS_gene (num_genes_of one_gene two_genes person)
    * PROBS_trait (num_genes_of one_gene two_genes person) true.
Proof.
  unfold person_factor.
  rewrite bool_decide_eq_true_2 by (by apply elem_of_singleton). done.
Qed.

Lemma worlds_of_trait_observed_true_without :
  worlds_of_trait list_of {[person := founder person (Some true)]} ∅ = [].
Proof.
  rewrite worlds_of_trait_founder.
  rewrite bool_decide_eq_false_2 by apply not_elem_of_empty. done.
Qed.

Lemma worlds_of_trait_observed_true_with :
  worlds_of_trait list_of {[person := founder person (Some true)]} {[person]}
  = [(∅, ∅, {[person]}); (∅, {[person]}, {[person]}); ({[person]}, ∅, {[person]})].
Proof.
  rewrite worlds_of_trait_founder.
  rewrite bool_decide_eq_true_2 by (by apply elem_of_singleton). done.
Qed.

End single_founder.

(** C6.  For a dataset of one founder whose trait is not observed, [main]
    returns the store whose gene distribution is the prior table (0.96 for
    no copy, 0.03 for one, 0.01 for two) and whose trait distribution is
    the prior-weighted average of the trait table. *)
Theorem main_single_founder_unobserved (list_of : gset string → list string)
    (person : string) :
  listing list_of →
  ∃ d : distributions,
    main list_of {[person := founder person None]} = Some {[person := d]}
    ∧ copies0 (dist_gene d) = Q2Qc (96 # 100)
    ∧ copies1 (dist_gene d) = Q2Qc (3 # 100)
    ∧ copies2 (dist_gene d) = Q2Qc (1 # 100)
    ∧ trait_true (dist_trait d)
      = PROBS_gene Zero * PROBS_trait Zero true
        + PROBS_gene One * PROBS_trait One true
        + PROBS_gene Two * PROBS_trait Two true
    ∧ trait_false (dist_trait d)
      = PROBS_gene Zero * PROBS_trait Zero false
        + PROBS_gene One * PROBS_trait One false
        + PROBS_gene Two * PROBS_trait Two false.
Proof.
  intros Hl. eexists. split; [apply main_founder; exact Hl|].
  rewrite !worlds_of_trait_founder by exact Hl.
  cbn [app foldl fst snd].
  rewrite !update_person_without_trait, !update_person_with_trait,
    !person_factor_founder_without_trait, !person_factor_founder_with_trait,
    !num_genes_of_neither, !num_genes_of_two_genes, !num_genes_of_one_gene.
  cbn [dist_gene dist_trait trait_true trait_false].

  split_and!; Qc_evaluate.
Qed.

Lemma main_single_founder_unobserved_witness :
  ∃ d : distributions,
    main elements {[ "Harry" := founder "Harry" None ]} = Some {[ "Harry" := d ]}
    ∧ copies0 (dist_gene d) = Q2Qc (96 # 100).
Proof.
  destruct (main_single_founder_unobserved elements "Harry") as (d & Hmain & H0 & _).
  - intros s. reflexivity.
  - exists d. split; assumption.
Defined.

(** C7.  For a dataset of one founder whose trait is observed true, [main]
    returns the store whose trait distribution is exactly 1 for true and 0
    for false, and whose gene distribution is the prior reweighted by the
    probability of the trait given the number of copies, that is
    0.96 x 0.01, 0.03 x 0.56 and 0.01 x 0.65 for no, one and two copies,
    each divided by their sum, so that it sums to 1. *)
Theorem main_single_founder_observed_true (list_of : gset string → list string)
    (person : string) :
  listing list_of →
  let w0 := Q2Qc (96 # 100) * Q2Qc (1 # 100) in
  let w1 := Q2Qc (3 # 100) * Q2Qc (56 # 100) in
  let w2 := Q2Qc (1 # 100) * Q2Qc (65 # 100) in
  ∃ d : distributions,
    main list_of {[person := founder person (Some true)]} = Some {[person := d]}
    ∧ trait_true (dist_trait d) = 1
    ∧ trait_false (dist_trait d) = 0
    ∧ copies0 (dist_gene d) = w0 / (w0 + w1 + w2)
    ∧ copies1 (dist_gene d) = w1 / (w0 + w1 + w2)
    ∧ copies2 (dist_gene d) = w2 / (w0 + w1 + w2)
    ∧ gene_sum (dist_gene d) = 1.
Proof.
  intros Hl w0 w1 w2. subst w0 w1 w2.
  eexists. split; [apply main_founder; exact Hl|].
  rewrite worlds_of_trait_observed_true_without,
    worlds_of_trait_observed_true_with by exact Hl.
  cbn [app foldl fst snd].
  rewrite !update_person_with_trait, !person_factor_founder_with_trait,
    !num_genes_of_neither, !num_genes_of_two_genes, !num_genes_of_one_gene.
  cbn [dist_gene dist_trait trait_true trait_false].
  split_and!; Qc_evaluate.
Qed.

Lemma main_single_founder_observed_true_witness :
  ∃ d : distributions,
    main elements {[ "Harry" := founder "Harry" (Some true) ]}
    = Some {[ "Harry" := d ]}
    ∧ trait_true (dist_trait d) = 1
    ∧ trait_false (dist_trait d) = 0.
Proof.
  destruct (main_single_founder_observed_true elements "Harry")
    as (d & Hmain & H1 & H0 & _).
  - intros s. reflexivity.
  - exists d. split_and!; assumption.
Defined.

(** ** Further properties of [joint_probability] *)

Lemma gene_prob_pos (one_gene two_genes : gset string)
    (num_genes : copies) (data : person_data) :
  0 < gene_prob one_gene two_genes num_genes data.
Proof.
  unfold gene_prob.
  destruct (parent_prob_cases one_gene two_genes (mother data)) as [Hm|[Hm|Hm]],
    (parent_prob_cases one_gene two_genes (father data)) as [Hf|[Hf|Hf]];
    destruct (mother data), (father data), num_genes;
    rewrite ?Hm, ?Hf; compute_done.
Qed.

Lemma PROBS_trait_pos (num_genes : copies) (has_trait : bool) :
  0 < PROBS_trait num_genes has_trait.
Proof. destruct num_genes, has_trait; compute_done. Qed.

Lemma person_factor_pos (one_gene two_genes have_trait : gset string)
    (person : string) (data : person_data) :
  0 < person_factor one_gene two_genes have_trait person data.
Proof.
  apply Qcmult_pos_pos; [apply gene_prob_pos | apply PROBS_trait_pos].
Qed.

Lemma joint_probability_pos (people : gmap string person_data)
    (one_gene two_genes have_trait : gset string) :
  0 < joint_probability people one_gene two_genes have_trait.
Proof.
  unfold joint_probability.
  apply (map_fold_weak_ind (λ r _, 0 < r)); [compute_done|].
  intros person data m r _ Hr.
  apply Qcmult_pos_pos; [done|apply person_factor_pos].
Qed.

(** X1.  No world is impossible: every entry of the tables is positive and
    the inheritance rule yields positive values, so the joint probability
    of every world is strictly positive. *)
Theorem joint_probability_positive (people : gmap string person_data)
    (one_gene two_genes have_trait : gset string) :
  0 < joint_probability people one_gene two_genes have_trait.
Proof. apply joint_probability_pos. Qed.

(** ** Further properties of [update] *)

Lemma add_gene_comm (g : gene_dist) (n1 n2 : copies) (p1 p2 : Qc) :
  add_gene (add_gene g n1 p1) n2 p2 = add_gene (add_gene g n2 p2) n1 p1.
Proof. destruct n1, n2; simpl; f_equal; ring. Qed.

Lemma update_person_comm (og1 tg1 ht1 og2 tg2 ht2 : gset string) (p1 p2 : Qc)
    (person : string) (d : distributions) :
  update_person og2 tg2 ht2 p2 person (update_person og1 tg1 ht1 p1 person d)
  = update_person og1 tg1 ht1 p1 person (update_person og2 tg2 ht2 p2 person d).
Proof.
  unfold update_person. cbn [dist_gene dist_trait trait_true trait_false].
  rewrite add_gene_comm. f_equal. f_equal; ring.
Qed.

Lemma update_update_comm (probabilities : gmap string distributions)
    (og1 tg1 ht1 og2 tg2 ht2 : gset string) (p1 p2 : Qc) :
  update (update probabilities og1 tg1 ht1 p1) og2 tg2 ht2 p2
  = update (update probabilities og2 tg2 ht2 p2) og1 tg1 ht1 p1.
Proof.
  apply map_eq. intros person. rewrite !lookup_update.
  destruct (probabilities !! person) as [d|]; [|done].
  cbn. by rewrite update_person_comm.
Qed.

Lemma dom_update (probabilities : gmap string distributions)
    (one_gene two_genes have_trait : gset string) (p : Qc) :
  dom (update probabilities one_gene two_genes have_trait p) = dom probabilities.
Proof.
  apply set_eq. intros person. rewrite !elem_of_dom, lookup_update.
  by rewrite fmap_is_Some.
Qed.

Lemma dom_update_all (calls : list (world * Qc))
    (probabilities : gmap string distributions) :
  dom (update_all probabilities calls) = dom probabilities.
Proof.
  revert probabilities.
  induction calls as [|[[[og tg] ht] p] calls IH]; intros probabilities; [done|].
  cbn. unfold update_all in IH. by rewrite IH, dom_update.
Qed.

(** X2.  [update] is a commutative accumulation: it keeps the people of the
    store as they are, and the store after a sequence of calls does not
    depend on the order of the calls. *)
Theorem update_all_permutation (probabilities : gmap string distributions)
    (calls calls' : list (world * Qc)) :
  calls ≡ₚ calls' →
  update_all probabilities calls = update_all probabilities calls'
  ∧ dom (update_all probabilities calls) = dom probabilities.
Proof.
  intros Hperm. split; [|apply dom_update_all].
  revert probabilities.
  induction Hperm as [|[[[og tg] ht] p] l l' _ IH
                      |[[[og1 tg1] ht1] p1] [[[og2 tg2] ht2] p2] l
                      |l1 l2 l3 _ IH1 _ IH2]; intros probabilities.
  - done.
  - cbn. apply IH.
  - cbn. by rewrite update_update_comm.
  - by rewrite IH1.
Qed.

Lemma update_all_permutation_witness :
  let calls : list (world * Qc) :=
    [ ((∅, ∅, ∅), Q2Qc (1 # 2)); (({[ "Harry" ]}, ∅, {[ "Harry" ]}), Q2Qc (1 # 4)) ] in
  update_all {[ "Harry" := zero_distributions ]} calls
  = update_all {[ "Harry" := zero_distributions ]} (reverse calls).
Proof.
  intros calls.
  apply (update_all_permutation {[ "Harry" := zero_distributions ]} calls (reverse calls)).
  apply Permutation_swap.
Defined.

(** ** Further properties of [normalize] *)

Lemma scaled_gene_proportions (g : gene_dist) :
  copies2 (scaled_gene g) * copies1 g = copies1 (scaled_gene g) * copies2 g
  ∧ copies2 (scaled_gene g) * copies0 g = copies0 (scaled_gene g) * copies2 g
  ∧ copies1 (scaled_gene g) * copies0 g = copies0 (scaled_gene g) * copies1 g.
Proof.
  unfold scaled_gene. case_decide as Hs; [|split_and!; ring].
  apply Qclt_ne_0 in Hs. cbn [copies2 copies1 copies0].
  split_and!; field; done.
Qed.

Lemma scaled_trait_proportions (t : trait_dist) :
  trait_true (scaled_trait t) * trait_false t
  = trait_false (scaled_trait t) * trait_true t.
Proof.
  unfold scaled_trait. case_decide as Hs; [|ring].
  apply Qclt_ne_0 in Hs. cbn [trait_true trait_false]. field; done.
Qed.

(** X3, over exact rationals.  With the buckets exact numbers,
    [normalize] keeps the people of the store and, as its docstring says,
    the relative proportions of every distribution: the ratio of any two
    buckets is the same before and after.  A distribution whose sum is not
    positive (zero or negative) is returned as it is.  In the binary64
    floats of the program the divisions round and the proportions are kept
    only up to rounding: module [HeredityFloat] has such a run. *)
Theorem normalize_keeps_proportions (probabilities : gmap string distributions) :
  ∃ normalized : gmap string distributions,
    normalize probabilities = Some normalized
    ∧ dom normalized = dom probabilities
    ∧ ∀ person d, probabilities !! person = Some d →
        ∃ d', normalized !! person = Some d'
          ∧ copies2 (dist_gene d') * copies1 (dist_gene d)
            = copies1 (dist_gene d') * copies2 (dist_gene d)
          ∧ copies2 (dist_gene d') * copies0 (dist_gene d)
            = copies0 (dist_gene d') * copies2 (dist_gene d)
          ∧ copies1 (dist_gene d') * copies0 (dist_gene d)
            = copies0 (dist_gene d') * copies1 (dist_gene d)
          ∧ trait_true (dist_trait d') * trait_false (dist_trait d)
            = trait_false (dist_trait d') * trait_true (dist_trait d)
          ∧ (gene_sum (dist_gene d) ≤ 0 → dist_gene d' = dist_gene d)
          ∧ (trait_sum (dist_trait d) ≤ 0 → dist_trait d' = dist_trait d).
Proof.
  exists (scaled <$> probabilities). split_and!.
  - apply normalize_scaled.
  - apply dom_fmap_L.
  - intros person d Hd. exists (scaled d). rewrite lookup_fmap, Hd.
    destruct (scaled_gene_proportions (dist_gene d)) as (H21 & H20 & H10).
    pose proof (scaled_trait_proportions (dist_trait d)) as Ht.
    split_and!; try done.
    + intros Hs. cbn. unfold scaled_gene. rewrite decide_False; [done|].
      by apply Qcle_not_lt.
    + intros Hs. cbn. unfold scaled_trait. rewrite decide_False; [done|].
      by apply Qcle_not_lt.
Qed.

(** ** The whole of [main], for every dataset *)

Lemma accumulate_update_all (people : gmap string person_data) (ws : list world)
    (probabilities : gmap string distributions) :
  foldl (accumulate people) probabilities ws
  = update_all probabilities (calls_of people ws).
Proof.
  revert probabilities.
  induction ws as [|[[og tg] ht] ws IH]; intros probabilities; [done|].
  cbn. apply IH.
Qed.

Lemma total_calls_of_pos (people : gmap string person_data) (ws : list world) :
  ws ≠ [] → 0 < total (calls_of people ws).
Proof.
  assert (∀ l : list world, 0 ≤ total (calls_of people l)) as Hnonneg.
  { induction l as [|w l IH]; [compute_done|]. cbn.
    apply Qcplus_nonneg_nonneg; [|done].
    apply Qclt_le_weak, joint_probability_pos. }
  destruct ws as [|w ws]; [done|]. intros _. cbn.
  apply Qcplus_pos_nonneg; [apply joint_probability_pos|apply Hnonneg].
Qed.

Lemma elem_of_observed_true (people : gmap string person_data) (person : string) :
  person ∈ observed_true people
  ↔ ∃ data, people !! person = Some data ∧ trait data = Some true.
Proof.
  unfold observed_true. rewrite elem_of_dom. unfold is_Some.
  setoid_rewrite map_lookup_filter_Some. naive_solver.
Qed.

Section main.
Context (list_of : gset string → list string) (Hlisting : listing list_of).
Context (people : gmap string person_data).

(** The candidate made of the people observed to have the trait passes
    the evidence filter. *)
Lemma fails_evidence_observed_true :
  fails_evidence list_of people (observed_true people) = Some false.
Proof.
  destruct (fails_evidence_total list_of people (observed_true people) Hlisting)
    as ([] & Hb & Hiff); [|done].
  destruct Hiff as [Hiff _].
  destruct Hiff as (person & data & Hp & [[Ht Hout]|[Ht Hin]]); [done| |].
  - exfalso. apply Hout, elem_of_observed_true. by exists data.
  - apply elem_of_observed_true in Hin as (data' & Hp' & Ht'). congruence.
Qed.

Lemma worlds_nonempty :
  ∃ ws, worlds list_of people = Some ws ∧ ws ≠ []
    ∧ ∀ w, w ∈ ws → fails_evidence list_of people w.2 = Some false.
Proof.
  eexists. split; [by apply worlds_total|]. split.
  - intros Hnil.
    assert ((∅, ∅, observed_true people)
            ∈ powerset list_of (dom people) ≫= worlds_of_trait list_of people)
      as Hin; [|rewrite Hnil in Hin; by apply not_elem_of_nil in Hin].
    apply list_elem_of_bind. exists (observed_true people). split.
    + apply elem_of_worlds_of_trait. cbn. split_and!; [done| |].
      * apply fails_evidence_observed_true.
      * apply elem_of_gene_worlds; [done|]. split; apply empty_subseteq.
    + apply elem_of_powerset; [done|].
      intros person (data & Hp & _)%elem_of_observed_true.
      apply elem_of_dom. by eexists.
  - intros w (ht & (Hw & Hf & _)%elem_of_worlds_of_trait & _)%list_elem_of_bind.
    congruence.
Qed.

End main.

Lemma main_closed_form (list_of : gset string → list string)
    (people : gmap string person_data) (ws : list world) :
  worlds list_of people = Some ws →
  main list_of people
  = Some (scaled <$> update_all (initial_probabilities people) (calls_of people ws)).
Proof.
  intros Hws. unfold main. rewrite Hws. cbn [mbind option_bind].
  by rewrite accumulate_update_all, normalize_scaled.
Qed.

(** X4, over exact rationals.  With all numbers exact, for every dataset
    [main] returns a store with one entry per person of the dataset, and
    in it every person's gene distribution sums to 1 and every person's
    trait distribution sums to 1: some world always passes the evidence
    filter and every world has positive probability, so no distribution
    is left unnormalized.  In the binary64 floats of the program the
    normalized buckets add up to 1 only up to rounding: module
    [HeredityFloat] has such a run. *)
Theorem main_distributions_sum_to_one (list_of : gset string → list string)
    (people : gmap string person_data) :
  listing list_of →
  ∃ probabilities : gmap string distributions,
    main list_of people = Some probabilities
    ∧ dom probabilities = dom people
    ∧ ∀ person d, probabilities !! person = Some d →
        gene_sum (dist_gene d) = 1 ∧ trait_sum (dist_trait d) = 1.
Proof.
  intros Hl.
  destruct (worlds_nonempty list_of Hl people) as (ws & Hws & Hne & _).
  eexists. split; [by apply main_closed_form|]. split.
  - rewrite dom_fmap_L, dom_update_all. apply dom_fmap_L.
  - intros person d. rewrite lookup_fmap.
    destruct (update_all _ _ !! person) as [d0|] eqn:Hd0; [|done].
    intros [= <-].
    assert (is_Some (initial_probabilities people !! person)) as [z Hz].
    { apply elem_of_dom. rewrite <-(dom_update_all (calls_of people ws)).
      apply elem_of_dom. by eexists. }
    assert (z = zero_distributions) as ->.
    { unfold initial_probabilities in Hz. rewrite lookup_fmap in Hz.
      destruct (people !! person); by inversion Hz. }
    destruct (update_all_sums (calls_of people ws) _ person _ Hz)
      as (d' & Hd' & Hg & Ht).
    rewrite Hd0 in Hd'. injection Hd' as <-.
    pose proof (total_calls_of_pos people ws Hne) as Hpos.
    assert (gene_sum (dist_gene zero_distributions) = 0) as Hg0 by Qc_evaluate.
    assert (trait_sum (dist_trait zero_distributions) = 0) as Ht0 by Qc_evaluate.
    rewrite Hg0, Qcplus_0_l in Hg. rewrite Ht0, Qcplus_0_l in Ht.
    split.
    + apply gene_sum_scaled. by rewrite Hg.
    + apply trait_sum_scaled. by rewrite Ht.
Qed.

Lemma main_distributions_sum_to_one_witness :
  let people : gmap string person_data :=
    {[ "Harry" := {| name := "Harry"; mother := Some "Lily"; father := Some "James";
                     trait := None |};
       "James" := founder "James" (Some true);
       "Lily" := founder "Lily" (Some false) ]} in
  ∃ probabilities : gmap string distributions,
    main elements people = Some probabilities
    ∧ dom probabilities = dom people.
Proof.
  intros people.
  destruct (main_distributions_sum_to_one elements people) as (pr & Hmain & Hdom & _).
  - intros s. reflexivity.
  - exists pr. split; assumption.
Defined.

(** Accumulating worlds that all agree on whether [person] has the trait
    never touches the person's other trait bucket. *)
Lemma update_all_trait_bucket (person : string) (t : bool)
    (calls : list (world * Qc)) (probabilities : gmap string distributions)
    (d : distributions) :
  probabilities !! person = Some d →
  (∀ c, c ∈ calls → bool_decide (person ∈ c.1.2) = t) →
  ∃ d', update_all probabilities calls !! person = Some d'
    ∧ (if t then trait_false (dist_trait d') = trait_false (dist_trait d)
       else trait_true (dist_trait d') = trait_true (dist_trait d)).
Proof.
  revert probabilities d.
  induction calls as [|[[[og tg] ht] p] calls IH]; intros probabilities d Hd Hall.
  - exists d. split; [done|]. by destruct t.
  - cbn.
    destruct (IH (update probabilities og tg ht p) (update_person og tg ht p person d))
      as (d' & Hd' & Hb).
    { by rewrite lookup_update, Hd. }
    { intros c Hc. by apply Hall, list_elem_of_further. }
    exists d'. split; [done|].
    pose proof (Hall (og, tg, ht, p) (list_elem_of_here _ _)) as Ht. cbn in Ht.
    destruct t; rewrite Hb; unfold update_person; cbn [dist_trait trait_true trait_false].
    + apply bool_decide_eq_true_1 in Ht.
      rewrite (bool_decide_eq_false_2 (person ∉ ht)) by auto. ring.
    + apply bool_decide_eq_false_1 in Ht.
      rewrite (bool_decide_eq_false_2 (person ∈ ht)) by auto. ring.
Qed.

(** X5.  [main] respects the evidence: for every dataset, a person whose
    trait is observed gets the observed value with probability exactly 1
    and the other value with probability exactly 0. *)
Theorem main_respects_evidence (list_of : gset string → list string)
    (people : gmap string person_data) (person : string) (data : person_data)
    (t : bool) :
  listing list_of →
  people !! person = Some data →
  trait data = Some t →
  ∃ (probabilities : gmap string distributions) (d : distributions),
    main list_of people = Some probabilities
    ∧ probabilities !! person = Some d
    ∧ trait_true (dist_trait d) = (if t then 1 else 0)
    ∧ trait_false (dist_trait d) = (if t then 0 else 1).
Proof.
  intros Hl Hp Ht.
  destruct (worlds_nonempty list_of Hl people) as (ws & Hws & Hne & Hok).
  assert (initial_probabilities people !! person = Some zero_distributions) as Hz.
  { unfold initial_probabilities. by rewrite lookup_fmap, Hp. }
  destruct (update_all_trait_bucket person t (calls_of people ws) _ _ Hz)
    as (d & Hd & Hbucket).
  { intros c ([[og tg] ht] & -> & Hw)%list_elem_of_fmap. cbn.
    specialize (Hok _ Hw). cbn in Hok.
    destruct (fails_evidence_total list_of people ht Hl) as (b & Hb & Hiff).
    assert (b = false) as -> by congruence.
    destruct t.
    - apply bool_decide_eq_true_2. destruct (decide (person ∈ ht)); [done|].
      exfalso. assert (false = true); [|done].
      apply Hiff. exists person, data. split; [done|]. by left.
    - apply bool_decide_eq_false_2. intros Hin.
      assert (false = true); [|done].
      apply Hiff. exists person, data. split; [done|]. by right. }
  destruct (update_all_sums (calls_of people ws) _ person _ Hz)
    as (d' & Hd' & _ & Hsum).
  rewrite Hd in Hd'. injection Hd' as <-.
  pose proof (total_calls_of_pos people ws Hne) as Hpos.
  assert (trait_sum (dist_trait zero_distributions) = 0) as Ht0 by Qc_evaluate.
  rewrite Ht0, Qcplus_0_l in Hsum. rewrite <-Hsum in Hpos.
  exists (scaled <$> update_all (initial_probabilities people) (calls_of people ws)),
    (scaled d).
  split_and!.
  - by apply main_closed_form.
  - by rewrite lookup_fmap, Hd.
  - cbn. unfold scaled_trait. rewrite decide_True by done.
    cbn. pose proof (Qclt_ne_0 _ Hpos) as Hne0.
    unfold trait_sum in *. destruct t; rewrite Hbucket in *; cbn in *.
    + rewrite Qcplus_0_r, Qcplus_0_l in *.  field. done.
    + rewrite Qcplus_0_l. unfold Qcdiv. by rewrite Qcmult_0_l.
  - cbn. unfold scaled_trait. rewrite decide_True by done.
    cbn. pose proof (Qclt_ne_0 _ Hpos) as Hne0.
    unfold trait_sum in *. destruct t; rewrite Hbucket in *; cbn in *.
    + unfold Qcdiv. by rewrite Qcmult_0_l.
    + rewrite !Qcplus_0_l in *. field. done.
Qed.

Lemma main_respects_evidence_witness :
  let people : gmap string person_data :=
    {[ "Harry" := {| name := "Harry"; mother := Some "Lily"; father := Some "James";
                     trait := None |};
       "James" := founder "James" (Some true);
       "Lily" := founder "Lily" (Some false) ]} in
  ∃ (probabilities : gmap string distributions) (d : distributions),
    main elements people = Some probabilities
    ∧ probabilities !! "James" = Some d
    ∧ trait_true (dist_trait d) = 1
    ∧ trait_false (dist_trait d) = 0.
Proof.
  intros people.
  apply (main_respects_evidence elements people "James" (founder "James" (Some true)) true).
  - intros s. reflexivity.
  - reflexivity.
  - reflexivity.
Defined.

(** X6.  [powerset] returns all the subsets of its argument, each of them
    once: a set is in the list exactly when it is a subset of [s], no set
    is listed twice, and the list has [2 ^ n] entries for a set of [n]
    elements. *)
Theorem powerset_all_subsets_once (list_of : gset string → list string)
    (s : gset string) :
  listing list_of →
  (∀ X : gset string, X ∈ powerset list_of s ↔ X ⊆ s)
  ∧ NoDup (powerset list_of s)
  ∧ length (powerset list_of s) = (2 ^ size s)%nat.
Proof.
  intros Hl. split_and!.
  - intros X. by apply elem_of_powerset.
  - by apply NoDup_powerset.
  - by apply length_powerset.
Qed.

Lemma powerset_all_subsets_once_witness :
  length (powerset elements {[ "Harry"; "James"; "Lily" ]}) = 8%nat
  ∧ NoDup (powerset elements {[ "Harry"; "James"; "Lily" ]}).
Proof.
  destruct (powerset_all_subsets_once elements {[ "Harry"; "James"; "Lily" ]})
    as (_ & Hnodup & Hlen).
  - intros s. reflexivity.
  - split; [|exact Hnodup]. rewrite Hlen. vm_compute. reflexivity.
Defined.

(** ** [load_data] *)

Lemma load_data_snoc (rows : list row) (r : row) :
  load_data (rows ++ [r]) = <[row_name r := person_of_row r]> (load_data rows).
Proof. unfold load_data. by rewrite foldl_snoc. Qed.

Lemma load_data_lookup (rows : list row) (person : string) :
  load_data rows !! person
  = person_of_row <$> last (filter (λ r, row_name r = person) rows).
Proof.
  induction rows as [|r rows IH] using rev_ind; [done|].
  rewrite load_data_snoc, filter_app.
  destruct (decide (row_name r = person)) as [Heq|Hne].
  - rewrite filter_cons_True, filter_nil by done.
    rewrite last_snoc. subst person. by rewrite lookup_insert_eq.
  - rewrite filter_cons_False, filter_nil, (right_id_L [] (++)) by done.
    by rewrite lookup_insert_ne.
Qed.

(** X7.  [load_data] keeps, for every name, the last row with that name:
    looking a name up in the loaded dictionary gives the entry of the last
    row of the file that carries the name, and nothing when no row does.
    Earlier rows with the same name are overwritten. *)
Theorem load_data_lookup_last (rows : list row) (person : string) :
  load_data rows !! person
  = person_of_row <$> last (filter (λ r, row_name r = person) rows).
Proof. apply load_data_lookup. Qed.

(** X8.  Every entry that [load_data] stores is filed under its own name,
    comes from a row of the file, and has no empty string as a parent: a
    blank mother or father field is stored as [None], which is what makes
    [joint_probability] treat the person as a founder.  The people of the
    dictionary are the names of the rows. *)
Theorem load_data_entries (rows : list row) :
  dom (load_data rows) = list_to_set (row_name <$> rows)
  ∧ ∀ person data, load_data rows !! person = Some data →
      name data = person
      ∧ mother data ≠ Some EmptyString
      ∧ father data ≠ Some EmptyString
      ∧ ∃ r, r ∈ rows ∧ data = person_of_row r
          ∧ (mother data = None ↔ row_mother r = EmptyString)
          ∧ (father data = None ↔ row_father r = EmptyString).
Proof.
  split.
  - induction rows as [|r rows IH] using rev_ind; [apply dom_empty_L|].
    rewrite load_data_snoc, dom_insert_L, IH, fmap_app, list_to_set_app_L.
    cbn. set_solver.
  - intros person data. rewrite load_data_lookup.
    destruct (last _) as [r|] eqn:Hlast; [|done]. intros [= <-].
    apply last_Some_elem_of, list_elem_of_filter in Hlast as [Hname Hin].
    assert (∀ x, or_None x ≠ Some EmptyString) as Hor.
    { intros x. unfold or_None. case_decide; congruence. }
    assert (∀ x, or_None x = None ↔ x = EmptyString) as Hnone.
    { intros x. unfold or_None. case_decide; naive_solver. }
    split_and!; [done|apply Hor|apply Hor|].
    exists r. split_and!; [done|done|apply Hnone|apply Hnone].
Qed.

End Heredity.

(** * The accumulation of [main] in binary64 (heredity.py)

    Module [Heredity] computes with exact rationals.  Python computes
    with binary64 floats, and there every [+=], [*=], [/=] and [sum]
    rounds.  This module runs the same code on the kernel's binary64
    floats, to tell what holds of the algorithm over exact numbers from
    what holds of the program bit for bit.

    The people, the sets and the enumeration of the worlds are those of
    module [Heredity]; only the numbers differ.  The store of [main]
    starts with the integer [0] in every bucket; adding a float to it
    gives that float, as adding it to the float [0] does, so the buckets
    are floats from the start. *)

Module HeredityFloat.

Import Heredity.
Import PrimFloat FloatOps SpecFloat.

Local Open Scope float_scope.
#[local] Set Warnings "-inexact-float".

(** ** The probability tables [PROBS] *)

(** Lines 5-37, with the literals read as Python reads them: each is the
    binary64 number nearest to the decimal. *)
Definition PROBS_gene (num_genes : copies) : float :=
  match num_genes with
  | Two => 0.01
  | One => 0.03
  | Zero => 0.96
  end.

Definition PROBS_trait (num_genes : copies) (has_trait : bool) : float :=
  match num_genes, has_trait with
  | Two, true => 0.65
  | Two, false => 0.35
  | One, true => 0.56
  | One, false => 0.44
  | Zero, true => 0.01
  | Zero, false => 0.99
  end.

Definition PROBS_mutation : float := 0.01.

(** ** [joint_probability] *)

(** Lines 161-170. *)
Definition parent_prob (one_gene two_genes : gset string)
    (parent : option string) : float :=
  if member parent one_gene then 0.5
  else if member parent two_genes then 1 - PROBS_mutation
  else PROBS_mutation.

(** Lines 156-178. *)
Definition gene_prob (one_gene two_genes : gset string)
    (num_genes : copies) (data : person_data) : float :=
  match mother data, father data with
  | None, None => PROBS_gene num_genes
  | _, _ =>
      let mother_prob := parent_prob one_gene two_genes (mother data) in
      let father_prob := parent_prob one_gene two_genes (father data) in
      match num_genes with
      | Zero => (1 - mother_prob) * (1 - father_prob)
      | One => mother_prob * (1 - father_prob) + (1 - mother_prob) * father_prob
      | Two => mother_prob * father_prob
      end
  end.

(** Lines 142-183.  The product is taken in the order in which [map_fold]
    visits the people, which stands for the order of the dictionary. *)
Definition joint_probability (people : gmap string person_data)
    (one_gene two_genes have_trait : gset string) : float :=
  map_fold
    (λ person data probability,
       let num_genes := num_genes_of one_gene two_genes person in
       let has_trait := bool_decide (person ∈ have_trait) in
       probability * (gene_prob one_gene two_genes num_genes data
                      * PROBS_trait num_genes has_trait))
    1 people.

(** ** The store of [main] and [update] *)

Record gene_dist : Set := { copies2 : float; copies1 : float; copies0 : float }.
Record trait_dist : Set := { trait_true : float; trait_false : float }.
Record distributions : Set := { dist_gene : gene_dist; dist_trait : trait_dist }.

(** Lines 48-61. *)
Definition zero_distributions : distributions :=
  {| dist_gene := {| copies2 := 0; copies1 := 0; copies0 := 0 |};
     dist_trait := {| trait_true := 0; trait_false := 0 |} |}.

Definition initial_probabilities (people : gmap string person_data)
    : gmap string distributions :=
  (λ _, zero_distributions) <$> people.

(** Line 203. *)
Definition add_gene (g : gene_dist) (num_genes : copies) (p : float) : gene_dist :=
  match num_genes with
  | Two => {| copies2 := copies2 g + p; copies1 := copies1 g; copies0 := copies0 g |}
  | One => {| copies2 := copies2 g; copies1 := copies1 g + p; copies0 := copies0 g |}
  | Zero => {| copies2 := copies2 g; copies1 := copies1 g; copies0 := copies0 g + p |}
  end.

(** Lines 195-207, for one person. *)
Definition update_person (one_gene two_genes have_trait : gset string) (p : float)
    (person : string) (d : distributions) : distributions :=
  let num_genes := num_genes_of one_gene two_genes person in
  {| dist_gene := add_gene (dist_gene d) num_genes p;
     dist_trait :=
       {| trait_true :=
            trait_true (dist_trait d)
            + (if bool_decide (person ∈ have_trait) then p else 0);
          trait_false :=
            trait_false (dist_trait d)
            + (if bool_decide (person ∉ have_trait) then p else 0) |} |}.

(** Lines 187-207. *)
Definition update (probabilities : gmap string distributions)
    (one_gene two_genes have_trait : gset string) (p : float)
    : gmap string distributions :=
  map_imap (λ person d, Some (update_person one_gene two_genes have_trait p person d))
    probabilities.

(** Lines 81-82: the body of the innermost loop of [main]. *)
Definition accumulate (people : gmap string person_data)
    (probabilities : gmap string distributions) (w : world)
    : gmap string distributions :=
  let '(one_gene, two_genes, have_trait) := w in
  let p := joint_probability people one_gene two_genes have_trait in
  update probabilities one_gene two_genes have_trait p.

(** Lines 48-82 of [main]: the store after the loops, before [normalize].
    The worlds are enumerated as in module [Heredity], a set being listed
    by [elements]. *)
Definition accumulated (people : gmap string person_data)
    : option (gmap string distributions) :=
  foldl (accumulate people) (initial_probabilities people)
    <$> worlds elements people.

(** The [p] that [main] passes to [update], in the order of the calls. *)
Definition joint_probabilities (people : gmap string person_data)
    : option (list float) :=
  fmap (M := list) (λ w : world, joint_probability people w.1.1 w.1.2 w.2)
    <$> worlds elements people.

(** ** [sum] and [normalize] *)

(** The values of the inner dictionaries, in the order of their keys. *)
Definition gene_values (d : distributions) : list float :=
  [copies2 (dist_gene d); copies1 (dist_gene d); copies0 (dist_gene d)].

Definition trait_values (d : distributions) : list float :=
  [trait_true (dist_trait d); trait_false (dist_trait d)].

(** Python's [sum] up to version 3.11: the values are added to [0] from
    the left. *)
Definition sum_left (values : list float) : float := foldl add 0 values.

(** Python's [sum] from version 3.12 on: Neumaier's compensated summation,
    the compensation added at the end when it is finite and not zero. *)
Definition sum_compensated (values : list float) : float :=
  let '(f, c) :=
    foldl (λ (acc : float * float) x,
             let '(f, c) := acc in
             let t := f + x in
             (t, if abs x <=? abs f then c + ((f - t) + x) else c + ((x - t) + f)))
      (0, 0) values in
  if negb (c =? 0) && is_finite c then f + c else f.

(** Lines 218-221 and 224-227, for the [sum] of the Python at hand. *)
Definition normalize_gene (sum : list float → float) (d : distributions) : gene_dist :=
  let g := dist_gene d in
  let gene_sum := sum (gene_values d) in
  if 0 <? gene_sum
  then {| copies2 := copies2 g / gene_sum;
          copies1 := copies1 g / gene_sum;
          copies0 := copies0 g / gene_sum |}
  else g.

Definition normalize_trait (sum : list float → float) (d : distributions) : trait_dist :=
  let t := dist_trait d in
  let trait_sum := sum (trait_values d) in
  if 0 <? trait_sum
  then {| trait_true := trait_true t / trait_sum;
          trait_false := trait_false t / trait_sum |}
  else t.

(** Lines 211-227. *)
Definition normalize (sum : list float → float)
    (probabilities : gmap string distributions) : gmap string distributions :=
  (λ d, {| dist_gene := normalize_gene sum d; dist_trait := normalize_trait sum d |})
    <$> probabilities.

(** Lines 48-85 of [main]. *)
Definition main (sum : list float → float) (people : gmap string person_data)
    : option (gmap string distributions) :=
  normalize sum <$> accumulated people.

(** ** Exact values *)

(** The number that a finite float stands for. *)
Definition exact (x : float) : Qc :=
  match Prim2SF x with
  | S754_finite s m e =>
      Q2Qc ((if s then -1 else 1) * inject_Z (Z.pos m) * Qpower 2 e)%Q
  | _ => 0%Qc
  end.

(** The sum of floats as numbers, without rounding. *)
Definition exact_sum (values : list float) : Qc :=
  foldl (λ acc x, acc + exact x)%Qc 0%Qc values.

(** ** One founder *)

(** A dataset of one person without parents. *)
Definition alone (observed : option bool) : gmap string person_data :=
  {[ "Harry" := founder "Harry" observed ]}.

(** C9 in binary64.  For one founder whose trait is not observed, [main]
    calls [update] six times, with the [p] listed.  Afterwards the gene
    buckets are [0.01], [0.030000000000000002] and [0.95999999999999996]
    and the trait buckets [0.032899999999999999] and
    [0.96709999999999985].  Python's [sum] gives [1.0] for the gene
    buckets and [0.99999999999999989] for the trait buckets, by plain and
    by compensated summation, and the [p] add up to
    [0.99999999999999989]: the two sums are not equal, and the gene sum is
    not the total of the [p].  The two sums differ as exact numbers too:
    the difference is in the buckets, not only in the way [sum] adds
    them. *)
Lemma update_sums_differ_binary64 :
  ∃ (d : distributions) (ps : list float),
    accumulated (alone None) = Some {[ "Harry" := d ]}
    ∧ joint_probabilities (alone None) = Some ps
    ∧ ps = [0.95039999999999991; 0.0034999999999999996; 0.0132;
            0.0095999999999999992; 0.0065000000000000006; 0.016800000000000002]
    ∧ gene_values d = [0.01; 0.030000000000000002; 0.95999999999999996]
    ∧ trait_values d = [0.032899999999999999; 0.96709999999999985]
    ∧ sum_left (gene_values d) = 1
    ∧ sum_left (trait_values d) = 0.99999999999999989
    ∧ sum_left ps = 0.99999999999999989
    ∧ sum_compensated (gene_values d) = 1
    ∧ sum_compensated (trait_values d) = 0.99999999999999989
    ∧ (sum_left (gene_values d) =? sum_left (trait_values d)) = false
    ∧ (sum_compensated (gene_values d) =? sum_compensated (trait_values d)) = false
    ∧ (sum_left (gene_values d) =? sum_left ps) = false
    ∧ exact_sum (gene_values d) ≠ exact_sum (trait_values d).
Proof.
  eexists _, _.
  split; [vm_compute; reflexivity|].
  split; [vm_compute; reflexivity|].
  split_and!; try (vm_compute; reflexivity).
  intros H. apply (f_equal this) in H. vm_compute in H. discriminate H.
Qed.

(** In binary64 [normalize] gives distributions that sum to [1] and keep
    the proportions only up to rounding.  For one founder whose trait is
    not observed the normalized gene buckets add up, as exact numbers, to
    a little less than [1].  For one founder observed to have the trait,
    two of the three cross products of the gene buckets before and after
    differ. *)
Lemma normalize_rounds_binary64 (sum : list float → float) :
  sum = sum_left ∨ sum = sum_compensated →
  (∃ d : distributions,
     main sum (alone None) = Some {[ "Harry" := d ]}
     ∧ exact_sum (gene_values d)
       = Q2Qc (576460752303423469 # 576460752303423488)
     ∧ exact_sum (gene_values d) ≠ 1%Qc)
  ∧ (∃ d d' : distributions,
       accumulated (alone (Some true)) = Some {[ "Harry" := d ]}
       ∧ main sum (alone (Some true)) = Some {[ "Harry" := d' ]}
       ∧ (copies2 (dist_gene d') * copies1 (dist_gene d)
          =? copies1 (dist_gene d') * copies2 (dist_gene d)) = false
       ∧ (copies2 (dist_gene d') * copies0 (dist_gene d)
          =? copies0 (dist_gene d') * copies2 (dist_gene d)) = true
       ∧ (copies1 (dist_gene d') * copies0 (dist_gene d)
          =? copies0 (dist_gene d') * copies1 (dist_gene d)) = false).
Proof.
  intros [-> | ->].
  all: split;
    [ eexists; split; [vm_compute; reflexivity|];
      split; [apply Qc_is_canon; vm_compute; reflexivity|];
      intros H; apply (f_equal this) in H; vm_compute in H; discriminate H
    | eexists _, _; split; [vm_compute; reflexivity|];
      split; [vm_compute; reflexivity|];
      split_and!; vm_compute; reflexivity ].
Qed.

End HeredityFloat.

(** * The tic-tac-toe player (tictactoe.py)

    A shallow embedding of [tictactoe.py]: boards are lists of rows of
    cells, indexed as Python indexes lists, and a call returns a value or
    raises one of the exceptions of the code. *)

Module TicTacToe.

Local Open Scope Z_scope.

(** ** Values *)

(** The players ["X"] and ["O"]. *)
Inductive mark : Set := X | O.

Global Instance mark_eq_dec : EqDecision mark.
Proof. solve_decision. Defined.

(** A cell holds a mark or [EMPTY], which is [None]. *)
Abbreviation cell := (option mark).
Definition EMPTY : cell := None.

(** A board is a list of rows, each a list of cells. *)
Abbreviation board := (list (list cell)).

(** An action [(i, j)]: a pair of Python integers. *)
Abbreviation move := (Z * Z)%type.

(** ** Exceptions *)

(** The exceptions the code can raise: [IndexError] from indexing a list,
    [ValueError("Move is out of bounds")] and [Exception("Invalid action")]
    from [result]. *)
Inductive exn : Set := IndexError | ValueError | InvalidAction.

(** The outcome of a call: a value, an exception, or [OutOfFuel].  The last
    one is no behaviour of the code: it marks a recursion cut short by the
    fuel of [minimax] below. *)
Inductive outcome (A : Type) : Type :=
  | Ok (a : A)
  | Raise (e : exn)
  | OutOfFuel.
Global Arguments Ok {A} a.
Global Arguments Raise {A} e.
Global Arguments OutOfFuel {A}.

Global Instance outcome_ret : MRet outcome := λ A a, Ok a.
Global Instance outcome_bind : MBind outcome := λ A B f m,
  match m with
  | Ok a => f a
  | Raise e => Raise e
  | OutOfFuel => OutOfFuel
  end.

(** ** Lists as Python has them *)

(** [l[i]]: a negative index counts from the end; an index out of range
    raises [IndexError]. *)
Definition getitem {A : Type} (l : list A) (i : Z) : outcome A :=
  let k := if decide (i < 0) then i + Z.of_nat (length l) else i in
  if decide (0 ≤ k) then
    match l !! Z.to_nat k with
    | Some x => Ok x
    | None => Raise IndexError
    end
  else Raise IndexError.

(** [l[i] = x], on a copy of the list. *)
Definition setitem {A : Type} (l : list A) (i : Z) (x : A) : outcome (list A) :=
  let k := if decide (i < 0) then i + Z.of_nat (length l) else i in
  if decide (0 ≤ k ∧ k < Z.of_nat (length l)) then Ok (<[Z.to_nat k := x]> l)
  else Raise IndexError.

(** [range(3)]. *)
Definition range3 : list Z := [0; 1; 2].

(** [all(f(x) for x in l)]: stops at the first false item; an item that
    raises ends it. *)
Fixpoint all {A : Type} (f : A → outcome bool) (l : list A) : outcome bool :=
  match l with
  | [] => Ok true
  | x :: l' => b ← f x; if b : bool then all f l' else Ok false
  end.

(** A [for] loop whose body may [return]: the first [x] of [l] for which
    [f x] holds ends the loop with [true]. *)
Fixpoint returns_in {A : Type} (f : A → outcome bool) (l : list A) : outcome bool :=
  match l with
  | [] => Ok false
  | x :: l' => b ← f x; if b : bool then Ok true else returns_in f l'
  end.

(** A [for] loop that updates a state and never leaves early. *)
Fixpoint for_each {A S : Type} (l : list A) (body : A → S → outcome S) (s : S)
    : outcome S :=
  match l with
  | [] => Ok s
  | x :: l' => s' ← body x s; for_each l' body s'
  end.

(** ** The functions of [tictactoe.py] *)

(** Lines 12-18. *)
Definition initial_state : board :=
  [[EMPTY; EMPTY; EMPTY];
   [EMPTY; EMPTY; EMPTY];
   [EMPTY; EMPTY; EMPTY]].

(** [row.count(EMPTY)]. *)
Definition count_EMPTY (row : list cell) : nat :=
  length (filter (λ c, c = EMPTY) row).

(** Lines 21-28. *)
Definition player (b : board) : mark :=
  if decide (Z.of_nat (sum_list (count_EMPTY <$> b)) `mod` 2 = 0) then O else X.

(** [board[i][j]]. *)
Definition at_ (b : board) (i j : Z) : outcome cell :=
  row ← getitem b i; getitem row j.

(** Lines 31-40. *)
Definition actions (b : board) : outcome (gset move) :=
  for_each range3
    (λ i possible_actions,
       for_each range3
         (λ j possible_actions,
            c ← at_ b i j;
            Ok (if decide (c = EMPTY) then possible_actions ∪ {[(i, j)]}
                else possible_actions))
         possible_actions)
    ∅.

(** Lines 43-54. *)
Definition result (b : board) (a : move) : outcome board :=
  let '(i, j) := a in
  if decide (i < 0 ∨ j < 0) then Raise ValueError
  else
    c ← at_ b i j;
    if decide (c ≠ EMPTY) then Raise InvalidAction
    else
      let new_board := b in
      row ← getitem new_board i;
      row' ← setitem row j (Some (player b));
      setitem new_board i row'.

(** A [for] loop whose body may [return] a value: the first item for
    which the body returns ends the loop; the loop yields [None] when it
    runs to its end. *)
Fixpoint for_return {A B : Type} (l : list A) (body : A → outcome (option B))
    : outcome (option B) :=
  match l with
  | [] => Ok None
  | x :: l' =>
      r ← body x;
      match r with
      | Some v => Ok (Some v)
      | None => for_return l' body
      end
  end.

(** [board[i][j] == player]. *)
Definition is_mark (b : board) (player : mark) (i j : Z) : outcome bool :=
  c ← at_ b i j; Ok (bool_decide (c = Some player)).

(** Lines 62-68: the body of the loop over the players.  It returns
    [player] when [player] holds a row, a column or a diagonal, and falls
    through (here: [None]) otherwise. *)
Definition winner_body (b : board) (player : mark) : outcome (option mark) :=
  (* Check rows and columns *)
  r ← for_return range3
    (λ i,
       row ← all (λ j, is_mark b player i j) range3;
       if row : bool then Ok (Some player)
       else
         col ← all (λ j, is_mark b player j i) range3;
         Ok (if col : bool then Some player else None));
  match r with
  | Some p => Ok (Some p)
  | None =>
      (* Check diagonals *)
      d ← all (λ i, is_mark b player i i) range3;
      if d : bool then Ok (Some player)
      else
        a ← all (λ i, is_mark b player i (2 - i)) range3;
        Ok (if a : bool then Some player else None)
  end.

(** Lines 57-69. *)
Definition winner (b : board) : outcome (option mark) :=
  for_return [X; O] (winner_body b).

(** Lines 72-76. *)
Definition terminal (b : board) : outcome bool :=
  w ← winner b;
  if decide (w ≠ None) then Ok true
  else all (λ ij : Z * Z, c ← at_ b ij.1 ij.2; Ok (bool_decide (c ≠ EMPTY)))
         (i ← range3; j ← range3; [(i, j)]).

(** Lines 79-88. *)
Definition utility (b : board) : outcome Z :=
  w ← winner b;
  if decide (w = Some X) then Ok 1
  else
    w' ← winner b;
    if decide (w' = Some O) then Ok (-1) else Ok 0.

(** The values [v] of [minimax]: an integer utility, [math.inf] or
    [-math.inf]. *)
Inductive score : Set := NegInf | Fin (z : Z) | PosInf.

(** [a < b] on these values. *)
Definition score_lt (a b : score) : bool :=
  match a, b with
  | NegInf, NegInf => false
  | NegInf, _ => true
  | Fin _, NegInf => false
  | Fin x, Fin y => bool_decide (x < y)
  | Fin _, PosInf => true
  | PosInf, _ => false
  end.

(** Iterating over the set [actions(board)] visits its elements in an
    order that Python leaves unspecified: the order is the parameter
    [order] of [minimax], known only to list each element once. *)
Definition listing (order : gset move → list move) : Prop :=
  ∀ s, order s ≡ₚ elements s.

(** Lines 95-117: [max_value] and [min_value].  The recursion is on
    [fuel]; each call of the code is one unit. *)
Fixpoint max_value (order : gset move → list move) (fuel : nat) (b : board)
    : outcome (score * option move) :=
  match fuel with
  | 0%nat => OutOfFuel
  | S fuel' =>
      t ← terminal b;
      if t : bool then u ← utility b; Ok (Fin u, None)
      else
        possible ← actions b;
        for_each (order possible)
          (λ action (acc : score * option move),
             let '(v, best_action) := acc in
             b' ← result b action;
             r ← min_value order fuel' b';
             let min_val := r.1 in
             Ok (if score_lt v min_val then (min_val, Some action)
                 else (v, best_action)))
          (NegInf, None)
  end
with min_value (order : gset move → list move) (fuel : nat) (b : board)
    : outcome (score * option move) :=
  match fuel with
  | 0%nat => OutOfFuel
  | S fuel' =>
      t ← terminal b;
      if t : bool then u ← utility b; Ok (Fin u, None)
      else
        possible ← actions b;
        for_each (order possible)
          (λ action (acc : score * option move),
             let '(v, best_action) := acc in
             b' ← result b action;
             r ← max_value order fuel' b';
             let max_val := r.1 in
             Ok (if score_lt max_val v then (max_val, Some action)
                 else (v, best_action)))
          (PosInf, None)
  end.

(** Lines 91-124. *)
Definition minimax (order : gset move → list move) (fuel : nat) (b : board)
    : outcome (option move) :=
  if decide (player b = X) then
    r ← max_value order fuel b; Ok r.2
  else
    r ← min_value order fuel b; Ok r.2.

(** A board of three rows of three cells, as [initial_state] and [result]
    make them. *)
Definition wf_board (b : board) : Prop :=
  length b = 3%nat ∧ Forall (λ row, length row = 3%nat) b.

(** The number of empty cells. *)
Definition empties (b : board) : nat := sum_list (count_EMPTY <$> b).

(** Three in a row: [player] holds a whole row, a whole column or one of
    the two diagonals. *)
Definition has_line (b : board) (player : mark) : Prop :=
  (∃ i, 0 ≤ i < 3 ∧ ∀ j, 0 ≤ j < 3 → at_ b i j = Ok (Some player))
  ∨ (∃ j, 0 ≤ j < 3 ∧ ∀ i, 0 ≤ i < 3 → at_ b i j = Ok (Some player))
  ∨ (∀ i, 0 ≤ i < 3 → at_ b i i = Ok (Some player))
  ∨ (∀ i, 0 ≤ i < 3 → at_ b i (2 - i) = Ok (Some player)).

(** The value [z] that the recursive call [f] finds for the board that
    action [a] leads to. *)
Definition successor_value (b : board) (f : board → outcome (score * option move))
    (a : move) (z : Z) : Prop :=
  ∃ b' a', result b a = Ok b' ∧ f b' = Ok (Fin z, a').

(** ** A whole game *)

(** The number of cells of a row, and of a board, that hold the mark [m]. *)
Definition count_row (m : mark) (row : list cell) : nat :=
  length (filter (λ c, c = Some m) row).
Definition count_mark (m : mark) (b : board) : nat :=
  sum_list (count_row m <$> b).

(** The board after a sequence of moves, each made by [result] on the
    board the move before left. *)
Fixpoint play (b : board) (moves : list move) : outcome board :=
  match moves with
  | [] => Ok b
  | a :: moves' => b' ← result b a; play b' moves'
  end.

(** What every board of a game satisfies. *)
Definition in_turn (b : board) : Prop :=
  wf_board b
  ∧ (count_mark X b + count_mark O b + empties b = 9)%nat
  ∧ ((player b = X ∧ count_mark X b = count_mark O b)
     ∨ (player b = O ∧ count_mark X b = S (count_mark O b))).

(** ** Indexing *)

Lemma getitem_nonneg {A} (l : list A) (i : Z) :
  0 ≤ i →
  getitem l i = match l !! Z.to_nat i with
                | Some x => Ok x
                | None => Raise IndexError
                end.
Proof.
  intros Hi. unfold getitem. repeat case_decide; try lia; done.
Qed.

Lemma setitem_nonneg {A} (l : list A) (i : Z) (x : A) :
  0 ≤ i → (Z.to_nat i < length l)%nat →
  setitem l i x = Ok (<[Z.to_nat i := x]> l).
Proof.
  intros Hi Hlen. unfold setitem.
  destruct (decide (i < 0)); [lia|]. case_decide; [done|lia].
Qed.

Lemma at_nonneg (b : board) (i j : Z) :
  0 ≤ i → 0 ≤ j →
  at_ b i j = match b !! Z.to_nat i with
              | Some row => match row !! Z.to_nat j with
                            | Some c => Ok c
                            | None => Raise IndexError
                            end
              | None => Raise IndexError
              end.
Proof.
  intros Hi Hj. unfold at_. rewrite getitem_nonneg by done.
  destruct (b !! Z.to_nat i) as [row|]; cbn; [|done].
  by rewrite getitem_nonneg.
Qed.

(** ** [player] and the number of empty cells *)

Lemma count_EMPTY_cons (c : cell) (row : list cell) :
  count_EMPTY (c :: row)
  = ((if decide (c = EMPTY) then 1 else 0) + count_EMPTY row)%nat.
Proof.
  unfold count_EMPTY. rewrite filter_cons. by case_decide.
Qed.

Lemma count_EMPTY_insert (row : list cell) (k : nat) (m : mark) :
  row !! k = Some EMPTY →
  count_EMPTY row = S (count_EMPTY (<[k := Some m]> row)).
Proof.
  revert k. induction row as [|c row IH]; intros k Hk; [done|].
  destruct k as [|k]; cbn in Hk.
  - injection Hk as ->. cbn [insert list_insert].
    rewrite !count_EMPTY_cons. rewrite decide_True, decide_False by done. done.
  - cbn [insert list_insert]. rewrite !count_EMPTY_cons.
    rewrite (IH k Hk). by rewrite Nat.add_succ_r.
Qed.

Lemma empties_insert (b : board) (k : nat) (row row' : list cell) :
  b !! k = Some row →
  count_EMPTY row = S (count_EMPTY row') →
  empties b = S (empties (<[k := row']> b)).
Proof.
  unfold empties. revert k. induction b as [|r b IH]; intros k Hk Hrow; [done|].
  destruct k as [|k]; cbn in Hk.
  - injection Hk as ->. cbn -[count_EMPTY]. by rewrite Hrow.
  - cbn -[count_EMPTY]. rewrite (IH k Hk Hrow). by rewrite Nat.add_succ_r.
Qed.

Lemma player_flips (b b' : board) :
  empties b = S (empties b') → player b' ≠ player b.
Proof.
  unfold player. fold (empties b) (empties b'). intros ->.
  repeat case_decide; try done; zify; Z.to_euclidean_division_equations; lia.
Qed.

(** ** [result] *)

Lemma at_Ok_lookup (b : board) (i j : Z) (c : cell) :
  0 ≤ i → 0 ≤ j →
  at_ b i j = Ok c ↔
  ∃ row, b !! Z.to_nat i = Some row ∧ row !! Z.to_nat j = Some c.
Proof.
  intros Hi Hj. rewrite at_nonneg by done.
  destruct (b !! Z.to_nat i) as [row|]; [|naive_solver].
  destruct (row !! Z.to_nat j) as [c'|] eqn:Hc; naive_solver.
Qed.

Lemma result_Ok (b : board) (i j : Z) (row : list cell) :
  0 ≤ i → 0 ≤ j →
  b !! Z.to_nat i = Some row → row !! Z.to_nat j = Some EMPTY →
  result b (i, j)
  = Ok (<[Z.to_nat i := <[Z.to_nat j := Some (player b)]> row]> b).
Proof.
  intros Hi Hj Hrow Hc. unfold result.
  rewrite decide_False by lia.
  rewrite at_nonneg, Hrow, Hc by done. cbn.
  rewrite getitem_nonneg, Hrow by done. cbn.
  rewrite setitem_nonneg by (done || by eapply lookup_lt_Some). cbn.
  rewrite setitem_nonneg by (done || by eapply lookup_lt_Some). done.
Qed.

Lemma wf_board_insert (b : board) (k : nat) (row : list cell) :
  wf_board b → length row = 3%nat → wf_board (<[k := row]> b).
Proof.
  intros [Hlen Hrows] Hrow. split; [by rewrite length_insert|].
  by apply Forall_insert.
Qed.

Lemma wf_board_lookup (b : board) (k : nat) (row : list cell) :
  wf_board b → b !! k = Some row → length row = 3%nat ∧ (k < 3)%nat.
Proof.
  intros [Hlen Hrows] Hk. split.
  - by eapply (Forall_lookup_1 _ _ _ _ Hrows).
  - rewrite <-Hlen. by eapply lookup_lt_Some.
Qed.

Lemma result_step (b : board) (i j : Z) :
  0 ≤ i → 0 ≤ j → at_ b i j = Ok EMPTY →
  ∃ b', result b (i, j) = Ok b'
    ∧ at_ b' i j = Ok (Some (player b))
    ∧ (∀ i' j', 0 ≤ i' → 0 ≤ j' → (i', j') ≠ (i, j) →
         at_ b' i' j' = at_ b i' j')
    ∧ (wf_board b → wf_board b')
    ∧ empties b = S (empties b')
    ∧ player b' ≠ player b.
Proof.
  intros Hi Hj (row & Hrow & Hc)%at_Ok_lookup; [|done..].
  eexists. split; [by apply result_Ok|].
  assert (empties b
    = S (empties (<[Z.to_nat i := <[Z.to_nat j := Some (player b)]> row]> b)))
    as Hempties.
  { eapply empties_insert; [done|]. by apply count_EMPTY_insert. }
  split_and!.
  - apply at_Ok_lookup; [done..|]. eexists. split.
    + apply list_lookup_insert_eq. by eapply lookup_lt_Some.
    + apply list_lookup_insert_eq. by eapply lookup_lt_Some.
  - intros i' j' Hi' Hj' Hne. rewrite !at_nonneg by done.
    destruct (decide (Z.to_nat i' = Z.to_nat i)) as [Heq|Hneq].
    + rewrite Heq, list_lookup_insert_eq, Hrow by (by eapply lookup_lt_Some).
      rewrite list_lookup_insert_ne; [done|].
      intros Hj'eq. apply Hne. f_equal; lia.
    + by rewrite list_lookup_insert_ne.
  - intros Hwf. apply wf_board_insert; [done|].
    rewrite length_insert. by eapply wf_board_lookup.
  - done.
  - by apply player_flips.
Qed.

(** X9.  A move on an empty cell: for non-negative [i] and [j] whose cell
    exists and is empty, [result] returns a new board in which that cell
    holds the mark of the player to move, every other cell is as before,
    the shape is kept, one cell fewer is empty, and the turn has passed to
    the other player. *)
Theorem result_places_mark (b : board) (i j : Z) :
  0 ≤ i → 0 ≤ j → at_ b i j = Ok EMPTY →
  ∃ b', result b (i, j) = Ok b'
    ∧ at_ b' i j = Ok (Some (player b))
    ∧ (∀ i' j', 0 ≤ i' → 0 ≤ j' → (i', j') ≠ (i, j) →
         at_ b' i' j' = at_ b i' j')
    ∧ (wf_board b → wf_board b')
    ∧ empties b = S (empties b')
    ∧ player b' ≠ player b.
Proof. apply result_step. Qed.

Lemma result_places_mark_witness :
  ∃ b', result initial_state (1, 1) = Ok b'
    ∧ at_ b' 1 1 = Ok (Some X)
    ∧ empties b' = 8%nat.
Proof.
  destruct (result_places_mark initial_state 1 1)
    as (b' & Hres & Hat & _ & _ & Hempties & _); [lia|lia|reflexivity|].
  exists b'. split_and!; [done|done|].
  assert (empties initial_state = 9%nat) as H9 by reflexivity.
  rewrite H9 in Hempties. by injection Hempties.
Defined.

(** X10.  The errors of [result]: a negative coordinate raises [ValueError]
    before the board is looked at, so no move wraps around to the other
    side; on a 3x3 board a coordinate of 3 or more raises [IndexError],
    not the "out of bounds" [ValueError]; and a move on an occupied cell
    raises the "Invalid action" exception. *)
Theorem result_errors (b : board) (i j : Z) :
  (i < 0 ∨ j < 0 → result b (i, j) = Raise ValueError)
  ∧ (wf_board b → 0 ≤ i → 0 ≤ j → 3 ≤ i ∨ 3 ≤ j →
       result b (i, j) = Raise IndexError)
  ∧ (∀ m, 0 ≤ i → 0 ≤ j → at_ b i j = Ok (Some m) →
       result b (i, j) = Raise InvalidAction).
Proof.
  split_and!.
  - intros Hneg. unfold result. by rewrite decide_True.
  - intros Hwf Hi Hj Hbig. unfold result. rewrite decide_False by lia.
    rewrite at_nonneg by done.
    destruct (b !! Z.to_nat i) as [row|] eqn:Hrow; [|done].
    destruct (wf_board_lookup _ _ _ Hwf Hrow) as [Hlen Hlt].
    rewrite (lookup_ge_None_2 row (Z.to_nat j)) by lia. done.
  - intros m Hi Hj Hat. unfold result. rewrite decide_False by lia.
    rewrite Hat. cbn. by rewrite decide_True.
Qed.

(** ** Loops *)

(** The invariant rule for a [for] loop that never leaves early: an
    invariant on the items already visited that every iteration
    re-establishes holds of the whole list at the end. *)
Lemma for_each_invariant {A S} (Inv : list A → S → Prop)
    (body : A → S → outcome S) (l : list A) (s0 : S) :
  Inv [] s0 →
  (∀ pre x post s, l = pre ++ x :: post → Inv pre s →
     ∃ s', body x s = Ok s' ∧ Inv (pre ++ [x]) s') →
  ∃ s, for_each l body s0 = Ok s ∧ Inv l s.
Proof.
  intros H0 Hstep.
  assert (∀ post pre s, l = pre ++ post → Inv pre s →
    ∃ s', for_each post body s = Ok s' ∧ Inv l s') as Hgen.
  { induction post as [|x post IH]; intros pre s Hl Hinv.
    - exists s. split; [done|]. by rewrite Hl, (right_id_L [] (++)).
    - destruct (Hstep pre x post s Hl Hinv) as (s' & Hbody & Hinv').
      cbn. rewrite Hbody. cbn.
      apply (IH (pre ++ [x])); [|done]. by rewrite <-(assoc_L (++)). }
  by apply (Hgen l []).
Qed.

(** ** [actions] *)

Lemma at_wf_Ok (b : board) (i j : Z) :
  wf_board b → 0 ≤ i < 3 → 0 ≤ j < 3 → ∃ c, at_ b i j = Ok c.
Proof.
  intros [Hlen Hrows] Hi Hj.
  destruct (lookup_lt_is_Some_2 b (Z.to_nat i)) as [row Hrow]; [lia|].
  assert (length row = 3%nat) as Hr by (by eapply (Forall_lookup_1 _ _ _ _ Hrows)).
  destruct (lookup_lt_is_Some_2 row (Z.to_nat j)) as [c Hc]; [lia|].
  exists c. apply at_Ok_lookup; [lia..|]. by exists row.
Qed.

Lemma elem_of_range3 (i : Z) : i ∈ range3 ↔ 0 ≤ i < 3.
Proof.
  unfold range3. rewrite !elem_of_cons, elem_of_nil. lia.
Qed.

Lemma actions_inner (b : board) (i : Z) (acc : gset move) :
  wf_board b → 0 ≤ i < 3 →
  ∃ acc',
    for_each range3
      (λ j possible_actions,
         c ← at_ b i j;
         Ok (if decide (c = EMPTY) then possible_actions ∪ {[(i, j)]}
             else possible_actions))
      acc = Ok acc'
    ∧ ∀ a, a ∈ acc' ↔ a ∈ acc ∨ ∃ j, 0 ≤ j < 3 ∧ a = (i, j) ∧ at_ b i j = Ok EMPTY.
Proof.
  intros Hwf Hi.
  destruct (for_each_invariant
    (λ js (s : gset move),
       ∀ a, a ∈ s ↔ a ∈ acc ∨ ∃ j, j ∈ js ∧ a = (i, j) ∧ at_ b i j = Ok EMPTY)
    (λ j possible_actions,
         c ← at_ b i j;
         Ok (if decide (c = EMPTY) then possible_actions ∪ {[(i, j)]}
             else possible_actions))
    range3 acc) as (acc' & Hrun & Hinv).
  - intros a. split; [auto|]. intros [?|(j & Hj%elem_of_nil & _)]; done.
  - intros pre j post s Hl Hinv.
    assert (0 ≤ j < 3) as Hj.
    { apply elem_of_range3. rewrite Hl. apply elem_of_app. right. left. }
    destruct (at_wf_Ok b i j Hwf Hi Hj) as [c Hc]. rewrite Hc. cbn.
    eexists. split; [done|]. intros a.
    setoid_rewrite elem_of_app. setoid_rewrite list_elem_of_singleton.
    case_decide as Hempty.
    + rewrite elem_of_union, elem_of_singleton, Hinv. subst c.
      split; [|naive_solver].
      intros [[?|(j' & ? & ? & ?)]| ->]; [by left|right; naive_solver|].
      right. exists j. naive_solver.
    + rewrite Hinv. split; [naive_solver|].
      intros [?|(j' & [?| ->] & -> & Hat)]; [by left|right; naive_solver|].
      congruence.
  - exists acc'. split; [done|]. intros a. rewrite Hinv.
    by setoid_rewrite elem_of_range3.
Qed.

Lemma actions_Ok (b : board) :
  wf_board b →
  ∃ possible : gset move,
    actions b = Ok possible
    ∧ ∀ i j, (i, j) ∈ possible ↔ 0 ≤ i < 3 ∧ 0 ≤ j < 3 ∧ at_ b i j = Ok EMPTY.
Proof.
  intros Hwf. unfold actions.
  destruct (for_each_invariant
    (λ visited (s : gset move),
       ∀ a, a ∈ s ↔ ∃ i j, i ∈ visited ∧ 0 ≤ j < 3 ∧ a = (i, j) ∧ at_ b i j = Ok EMPTY)
    (λ i possible_actions,
       for_each range3
         (λ j possible_actions,
            c ← at_ b i j;
            Ok (if decide (c = EMPTY) then possible_actions ∪ {[(i, j)]}
                else possible_actions))
         possible_actions)
    range3 ∅) as (possible & Hrun & Hinv).
  - intros a. split; [by intros ?%not_elem_of_empty|].
    by intros (i & j & ?%elem_of_nil & _).
  - intros pre i post s Hl Hinv.
    assert (0 ≤ i < 3) as Hi.
    { apply elem_of_range3. rewrite Hl. apply elem_of_app. right. left. }
    destruct (actions_inner b i s Hwf Hi) as (s' & Hrun & Hs').
    exists s'. split; [done|]. intros a. rewrite Hs', Hinv.
    setoid_rewrite elem_of_app. setoid_rewrite list_elem_of_singleton.
    split.
    + intros [(i' & j & ? & ? & ? & ?)|(j & ? & ? & ?)]; [|by exists i, j; auto].
      exists i', j. auto.
    + intros (i' & j & [?| ->] & ? & ? & ?); [left; by exists i', j|].
      right. by exists j.
  - exists possible. split; [done|]. intros i j. rewrite Hinv.
    setoid_rewrite elem_of_range3. split.
    + intros (i' & j' & ? & ? & [= -> ->] & ?). done.
    + intros (? & ? & ?). by exists i, j.
Qed.

Lemma count_EMPTY_0 (row : list cell) :
  count_EMPTY row = 0%nat ↔ ∀ c, c ∈ row → c ≠ EMPTY.
Proof.
  induction row as [|c row IH].
  - split; [|done]. by intros _ c ?%elem_of_nil.
  - rewrite count_EMPTY_cons. setoid_rewrite elem_of_cons. case_decide as Hc.
    + split; [lia|]. intros Hall. exfalso. by apply (Hall c); [left|].
    + cbn. rewrite IH. naive_solver.
Qed.

Lemma empties_0 (b : board) :
  empties b = 0%nat ↔ ∀ row c, row ∈ b → c ∈ row → c ≠ EMPTY.
Proof.
  unfold empties. induction b as [|row b IH].
  - split; [|done]. by intros _ row c ?%elem_of_nil.
  - cbn -[count_EMPTY]. setoid_rewrite elem_of_cons.
    rewrite Nat.eq_add_0, IH, count_EMPTY_0. naive_solver.
Qed.

Lemma empties_0_at (b : board) :
  wf_board b →
  empties b = 0%nat ↔ ∀ i j, 0 ≤ i < 3 → 0 ≤ j < 3 → at_ b i j ≠ Ok EMPTY.
Proof.
  intros Hwf. rewrite empties_0. split.
  - intros Hall i j Hi Hj (row & Hrow & Hc)%at_Ok_lookup; [|lia..].
    eapply Hall; [| |done]; by eapply list_elem_of_lookup_2.
  - intros Hall row c (k & Hrow)%list_elem_of_lookup_1 (l & Hc)%list_elem_of_lookup_1 ->.
    destruct (wf_board_lookup _ _ _ Hwf Hrow) as [Hlen Hk].
    assert (l < 3)%nat as Hl by (rewrite <-Hlen; by eapply lookup_lt_Some).
    apply (Hall (Z.of_nat k) (Z.of_nat l)); [lia..|].
    apply at_Ok_lookup; [lia..|]. exists row. by rewrite !Nat2Z.id.
Qed.

Lemma result_Ok_inv (b b' : board) (i j : Z) :
  result b (i, j) = Ok b' → 0 ≤ i ∧ 0 ≤ j ∧ at_ b i j = Ok EMPTY.
Proof.
  unfold result. case_decide as Hneg; [done|].
  destruct (at_ b i j) as [c| |]; cbn [mbind outcome_bind]; [|done..].
  case_decide as Hc; [done|]. intros _. split_and!; [lia..|].
  f_equal. by destruct (decide (c = EMPTY)).
Qed.

Lemma at_wf_range (b : board) (i j : Z) (c : cell) :
  wf_board b → 0 ≤ i → 0 ≤ j → at_ b i j = Ok c → i < 3 ∧ j < 3.
Proof.
  intros Hwf Hi Hj (row & Hrow & Hc)%at_Ok_lookup; [|done..].
  destruct (wf_board_lookup _ _ _ Hwf Hrow) as [Hlen Hlt].
  apply lookup_lt_Some in Hc. lia.
Qed.

(** X11.  On a 3x3 board [actions] returns exactly the coordinates of the
    empty cells, which are exactly the moves that [result] accepts; the
    set is empty exactly when no cell is empty. *)
Theorem actions_are_the_legal_moves (b : board) :
  wf_board b →
  ∃ possible : gset move,
    actions b = Ok possible
    ∧ (∀ i j, (i, j) ∈ possible ↔ 0 ≤ i < 3 ∧ 0 ≤ j < 3 ∧ at_ b i j = Ok EMPTY)
    ∧ (∀ a, a ∈ possible ↔ ∃ b', result b a = Ok b')
    ∧ (possible = ∅ ↔ empties b = 0%nat).
Proof.
  intros Hwf. destruct (actions_Ok b Hwf) as (possible & Hrun & Hin).
  exists possible. split_and!; [done|done| |].
  - intros [i j]. rewrite Hin. split.
    + intros (Hi & Hj & Hat).
      destruct (result_step b i j) as (b' & Hres & _); [lia|lia|done|].
      by exists b'.
    + intros [b' Hres].
      destruct (result_Ok_inv _ _ _ _ Hres) as (Hi & Hj & Hat).
      destruct (at_wf_range b i j _ Hwf Hi Hj Hat). split_and!; [lia..|done].
  - rewrite (empties_0_at b Hwf). split.
    + intros -> i j Hi Hj Hat.
      apply (not_elem_of_empty (C:=gset move) (i, j)), Hin. done.
    + intros Hall. apply set_eq. intros [i j]. rewrite Hin.
      split; [|by intros ?%not_elem_of_empty].
      intros (Hi & Hj & Hat). by destruct (Hall i j Hi Hj).
Qed.

Lemma wf_initial_state : wf_board initial_state.
Proof. split; [done|]. by repeat constructor. Qed.

Lemma actions_are_the_legal_moves_witness :
  ∃ possible : gset move,
    actions initial_state = Ok possible ∧ (1, 1) ∈ possible.
Proof.
  destruct (actions_are_the_legal_moves initial_state)
    as (possible & Hrun & Hin & _).
  - split; [reflexivity|]. repeat constructor.
  - exists possible. split; [done|]. apply Hin. split_and!; [lia..|reflexivity].
Defined.

(** ** [winner] *)

Lemma all_Ok {A} (f : A → outcome bool) (P : A → Prop) (l : list A) :
  (∀ x, x ∈ l → ∃ bx, f x = Ok bx ∧ (bx = true ↔ P x)) →
  ∃ r, all f l = Ok r ∧ (r = true ↔ ∀ x, x ∈ l → P x).
Proof.
  induction l as [|x l IH]; intros Hf.
  - exists true. split; [done|]. split; [|done]. by intros _ x ?%elem_of_nil.
  - destruct (Hf x) as (bx & Hx & Hbx); [left|]. cbn. rewrite Hx. cbn.
    destruct bx.
    + destruct IH as (r & Hr & Hiff); [intros y Hy; apply Hf; by right|].
      exists r. split; [done|]. rewrite Hiff. setoid_rewrite elem_of_cons.
      split; [|naive_solver]. intros Hall y [->|Hy]; [by apply Hbx|auto].
    + exists false. split; [done|]. split; [done|]. intros Hall.
      apply Hbx, Hall. left.
Qed.

Lemma for_return_found {A B} (body : A → outcome (option B)) (v : B)
    (P : A → Prop) (l : list A) :
  (∀ x, x ∈ l → ∃ rx, body x = Ok rx
       ∧ ((rx = Some v ∧ P x) ∨ (rx = None ∧ ¬ P x))) →
  ∃ r, for_return l body = Ok r
       ∧ ((r = Some v ∧ ∃ x, x ∈ l ∧ P x) ∨ (r = None ∧ ∀ x, x ∈ l → ¬ P x)).
Proof.
  induction l as [|x l IH]; intros Hbody.
  - exists None. split; [done|]. right. split; [done|]. by intros x ?%elem_of_nil.
  - destruct (Hbody x) as (rx & Hx & [[-> HP]|[-> HP]]); [left| |];
      cbn; rewrite Hx; cbn.
    + exists (Some v). split; [done|]. left. split; [done|]. exists x. split; [left|done].
    + destruct IH as (r & Hr & Hcases); [intros y Hy; apply Hbody; by right|].
      exists r. split; [done|]. destruct Hcases as [[-> (y & Hy & HPy)]|[-> Hnone]].
      * left. split; [done|]. exists y. split; [by right|done].
      * right. split; [done|]. intros y [->|Hy]%elem_of_cons; auto.
Qed.

Section winner.
Context (b : board) (Hwf : wf_board b).

Lemma is_mark_Ok (player : mark) (i j : Z) :
  0 ≤ i < 3 → 0 ≤ j < 3 →
  ∃ bx, is_mark b player i j = Ok bx
        ∧ (bx = true ↔ at_ b i j = Ok (Some player)).
Proof.
  intros Hi Hj. destruct (at_wf_Ok b i j Hwf Hi Hj) as [c Hc].
  unfold is_mark. rewrite Hc. cbn. eexists. split; [done|].
  rewrite bool_decide_eq_true. naive_solver.
Qed.

Lemma winner_body_Ok (player : mark) :
  ∃ r, winner_body b player = Ok r
       ∧ ((r = Some player ∧ has_line b player)
          ∨ (r = None ∧ ¬ has_line b player)).
Proof.
  unfold winner_body.
  destruct (for_return_found
    (λ i,
       row ← all (λ j, is_mark b player i j) range3;
       if row : bool then Ok (Some player)
       else
         col ← all (λ j, is_mark b player j i) range3;
         Ok (if col : bool then Some player else None))
    player
    (λ i, (∀ j, 0 ≤ j < 3 → at_ b i j = Ok (Some player))
          ∨ (∀ j, 0 ≤ j < 3 → at_ b j i = Ok (Some player)))
    range3) as (r & Hr & Hcases).
  { intros i Hi%elem_of_range3.
    destruct (all_Ok (λ j, is_mark b player i j)
      (λ j, at_ b i j = Ok (Some player)) range3) as (row & Hrow & Hrowiff).
    { intros j Hj%elem_of_range3. by apply is_mark_Ok. }
    destruct (all_Ok (λ j, is_mark b player j i)
      (λ j, at_ b j i = Ok (Some player)) range3) as (col & Hcol & Hcoliff).
    { intros j Hj%elem_of_range3. by apply is_mark_Ok. }
    setoid_rewrite elem_of_range3 in Hrowiff.
    setoid_rewrite elem_of_range3 in Hcoliff.
    rewrite Hrow. cbn [mbind outcome_bind]. destruct row.
    - eexists. split; [done|]. left. split; [done|]. left. by apply Hrowiff.
    - rewrite Hcol. cbn [mbind outcome_bind]. eexists. split; [done|]. destruct col.
      + left. split; [done|]. right. by apply Hcoliff.
      + right. split; [done|]. intros [H|H]; [apply Hrowiff in H|apply Hcoliff in H]; done. }
  rewrite Hr. cbn [mbind outcome_bind].
  destruct Hcases as [[-> (i & Hi%elem_of_range3 & Hline)]|[-> Hnone]].
  - eexists. split; [done|]. left. split; [done|].
    destruct Hline as [Hrow|Hcol]; [left|right; left]; by exists i.
  - destruct (all_Ok (λ i, is_mark b player i i)
      (λ i, at_ b i i = Ok (Some player)) range3) as (d & Hd & Hdiff).
    { intros i Hi%elem_of_range3. by apply is_mark_Ok. }
    destruct (all_Ok (λ i, is_mark b player i (2 - i))
      (λ i, at_ b i (2 - i) = Ok (Some player)) range3) as (a & Ha & Haiff).
    { intros i Hi%elem_of_range3. apply is_mark_Ok; lia. }
    setoid_rewrite elem_of_range3 in Hdiff.
    setoid_rewrite elem_of_range3 in Haiff.
    setoid_rewrite elem_of_range3 in Hnone.
    rewrite Hd. cbn [mbind outcome_bind]. destruct d.
    + eexists. split; [done|]. left. split; [done|].
      right. right. left. by apply Hdiff.
    + rewrite Ha. cbn [mbind outcome_bind]. eexists. split; [done|]. destruct a.
      * left. split; [done|]. right. right. right. by apply Haiff.
      * right. split; [done|].
        intros [(i & Hi & H)|[(i & Hi & H)|[H|H]]].
        -- apply (Hnone i Hi). by left.
        -- apply (Hnone i Hi). by right.
        -- by apply Hdiff in H.
        -- by apply Haiff in H.
Qed.

End winner.

Lemma winner_Ok (b : board) :
  wf_board b →
  ∃ w, winner b = Ok w
    ∧ ((w = Some X ∧ has_line b X)
       ∨ (w = Some O ∧ has_line b O ∧ ¬ has_line b X)
       ∨ (w = None ∧ ¬ has_line b X ∧ ¬ has_line b O)).
Proof.
  intros Hwf. unfold winner. cbn [for_return].
  destruct (winner_body_Ok b Hwf X) as (rx & -> & [[-> HX]|[-> HX]]);
    cbn [mbind outcome_bind].
  - eexists. split; [done|]. by left.
  - destruct (winner_body_Ok b Hwf O) as (ro & -> & [[-> HO]|[-> HO]]);
      cbn [mbind outcome_bind]; eexists; (split; [done|]); right; [left|right]; done.
Qed.

(** X12.  On a 3x3 board [winner] returns the player who holds three in a
    row (a row, a column or a diagonal) and [None] when nobody does.  X is
    looked at first: on a board where both players hold a line the winner
    is X. *)
Theorem winner_three_in_a_row (b : board) :
  wf_board b →
  ∃ w, winner b = Ok w
    ∧ (w = Some X ↔ has_line b X)
    ∧ (w = Some O ↔ has_line b O ∧ ¬ has_line b X)
    ∧ (w = None ↔ ¬ has_line b X ∧ ¬ has_line b O).
Proof.
  intros Hwf.
  destruct (winner_Ok b Hwf)
    as (w & Hw & [[Hwx HX]|[(Hwo & HO & HX)|(Hwn & HX & HO)]]);
    exists w; subst w; (split; [done|]); split_and!; split; try done; naive_solver.
Qed.

Lemma winner_three_in_a_row_witness :
  let b : board := [[Some X; Some X; Some X];
                    [Some O; Some O; Some O];
                    [EMPTY; EMPTY; EMPTY]] in
  ∃ w, winner b = Ok w ∧ (w = Some X ↔ has_line b X).
Proof.
  intros b.
  destruct (winner_three_in_a_row b) as (w & Hw & HX & _).
  - split; [reflexivity|]. repeat constructor.
  - exists w. split; assumption.
Defined.

(** ** [terminal] and [utility] *)

Lemma elem_of_cells (ij : Z * Z) :
  ij ∈ (i ← range3; j ← range3; [(i, j)]) ↔ 0 ≤ ij.1 < 3 ∧ 0 ≤ ij.2 < 3.
Proof.
  rewrite list_elem_of_bind. setoid_rewrite list_elem_of_bind.
  setoid_rewrite list_elem_of_singleton. setoid_rewrite elem_of_range3.
  destruct ij as [i j]. cbn. split.
  - intros (i' & (j' & [= -> ->] & ?) & ?). done.
  - intros [??]. exists i. split; [|done]. by exists j.
Qed.

Lemma terminal_utility_Ok (b : board) :
  wf_board b →
  ∃ (t : bool) (u : Z),
    terminal b = Ok t
    ∧ utility b = Ok u
    ∧ (t = true ↔ has_line b X ∨ has_line b O ∨ empties b = 0%nat)
    ∧ (u = 1 ↔ has_line b X)
    ∧ (u = -1 ↔ has_line b O ∧ ¬ has_line b X)
    ∧ (u = 0 ↔ ¬ has_line b X ∧ ¬ has_line b O)
    ∧ (t = false → u = 0)
    ∧ -1 ≤ u ≤ 1.
Proof.
  intros Hwf.
  destruct (all_Ok
    (λ ij : Z * Z, c ← at_ b ij.1 ij.2; Ok (bool_decide (c ≠ EMPTY)))
    (λ ij, at_ b ij.1 ij.2 ≠ Ok EMPTY)
    (i ← range3; j ← range3; [(i, j)])) as (full & Hfull & Hfulliff).
  { intros [i j] [Hi Hj]%elem_of_cells.
    destruct (at_wf_Ok b i j Hwf Hi Hj) as [c Hc]. cbn [fst snd] in *.
    rewrite Hc. cbn [mbind outcome_bind]. eexists. split; [done|].
    rewrite bool_decide_eq_true. naive_solver. }
  assert (full = true ↔ empties b = 0%nat) as Hfull'.
  { rewrite Hfulliff, (empties_0_at b Hwf). setoid_rewrite elem_of_cells. split.
    - intros Hall i j Hi Hj. by apply (Hall (i, j)).
    - intros Hall [i j] [Hi Hj]. by apply Hall. }
  unfold terminal, utility.
  destruct (winner_Ok b Hwf)
    as (w & -> & [[-> HX]|[(-> & HO & HX)|(-> & HX & HO)]]);
    cbn [mbind outcome_bind].
  - rewrite decide_True by done. rewrite decide_True by done.
    exists true, 1. split_and!; try done; try lia; naive_solver.
  - rewrite decide_True by done. rewrite decide_False by done.
    cbn [mbind outcome_bind]. rewrite decide_True by done.
    exists true, (-1). split_and!; try done; try lia; naive_solver.
  - rewrite decide_False by naive_solver. rewrite decide_False by done.
    cbn [mbind outcome_bind]. rewrite decide_False by done. rewrite Hfull.
    exists full, 0. split_and!; try done; try lia; try naive_solver.
Qed.

(** X13.  On a 3x3 board [terminal] says that the game is over exactly when
    a player holds three in a row or no cell is empty, and [utility] is 1
    when X holds a line, -1 when only O does, and 0 otherwise. *)
Theorem terminal_and_utility (b : board) :
  wf_board b →
  ∃ (t : bool) (u : Z),
    terminal b = Ok t
    ∧ utility b = Ok u
    ∧ (t = true ↔ has_line b X ∨ has_line b O ∨ empties b = 0%nat)
    ∧ (u = 1 ↔ has_line b X)
    ∧ (u = -1 ↔ has_line b O ∧ ¬ has_line b X)
    ∧ (u = 0 ↔ ¬ has_line b X ∧ ¬ has_line b O)
    ∧ (t = false → u = 0)
    ∧ -1 ≤ u ≤ 1.
Proof. apply terminal_utility_Ok. Qed.

Lemma terminal_and_utility_witness :
  ∃ (t : bool) (u : Z),
    terminal initial_state = Ok t ∧ utility initial_state = Ok u
    ∧ (t = false → u = 0).
Proof.
  destruct (terminal_and_utility initial_state) as (t & u & Ht & Hu & _ & _ & _ & _ & Htu & _).
  - split; [reflexivity|]. repeat constructor.
  - exists t, u. split_and!; assumption.
Defined.

(** ** [minimax] *)

Lemma for_each_ext {A S} (body1 body2 : A → S → outcome S) (l : list A) (s : S) :
  (∀ x s, x ∈ l → body1 x s = body2 x s) →
  for_each l body1 s = for_each l body2 s.
Proof.
  revert s. induction l as [|x l IH]; intros s Hext; [done|].
  cbn. rewrite Hext by left. destruct (body2 x s); cbn; [|done..].
  apply IH. intros y s' Hy. apply Hext. by right.
Qed.

Lemma max_value_S (order : gset move → list move) (fuel : nat) (b : board) :
  max_value order (S fuel) b
  = (t ← terminal b;
     if t : bool then u ← utility b; Ok (Fin u, None)
     else
       possible ← actions b;
       for_each (order possible)
         (λ action (acc : score * option move),
            let '(v, best_action) := acc in
            b' ← result b action;
            r ← min_value order fuel b';
            let min_val := r.1 in
            Ok (if score_lt v min_val then (min_val, Some action)
                else (v, best_action)))
         (NegInf, None)).
Proof. done. Qed.

Lemma min_value_S (order : gset move → list move) (fuel : nat) (b : board) :
  min_value order (S fuel) b
  = (t ← terminal b;
     if t : bool then u ← utility b; Ok (Fin u, None)
     else
       possible ← actions b;
       for_each (order possible)
         (λ action (acc : score * option move),
            let '(v, best_action) := acc in
            b' ← result b action;
            r ← max_value order fuel b';
            let max_val := r.1 in
            Ok (if score_lt max_val v then (max_val, Some action)
                else (v, best_action)))
         (PosInf, None)).
Proof. done. Qed.

Lemma result_Ok_empties (b b' : board) (a : move) :
  result b a = Ok b' →
  empties b = S (empties b') ∧ (wf_board b → wf_board b').
Proof.
  destruct a as [i j]. intros Hres.
  destruct (result_Ok_inv _ _ _ _ Hres) as (Hi & Hj & Hat).
  destruct (result_step b i j Hi Hj Hat) as (b'' & Hres' & _ & _ & Hwf & He & _).
  rewrite Hres in Hres'. injection Hres' as <-. done.
Qed.

(** The fuel does not matter once it exceeds the number of empty cells. *)
Lemma fuel_independent (order : gset move → list move) (fuel fuel' : nat) (b : board) :
  (empties b < fuel)%nat → (empties b < fuel')%nat →
  max_value order fuel b = max_value order fuel' b
  ∧ min_value order fuel b = min_value order fuel' b.
Proof.
  revert fuel' b. induction fuel as [|fuel IH]; intros [|fuel'] b Hf Hf'; try lia.
  rewrite !max_value_S, !min_value_S.
  destruct (terminal b) as [[|]| |]; cbn [mbind outcome_bind]; try done.
  destruct (actions b) as [possible| |]; cbn [mbind outcome_bind]; try done.
  split; apply for_each_ext; intros a [v best] _;
    destruct (result b a) as [b'| |] eqn:Hres; cbn [mbind outcome_bind]; try done;
    destruct (result_Ok_empties _ _ _ Hres) as [He _];
    destruct (IH fuel' b') as [Hmax Hmin]; try lia;
    by rewrite ?Hmax, ?Hmin.
Qed.

(** The loop of [max_value] and of [min_value]: it keeps the best value
    seen so far together with the first action that reached it. *)
Section best_loop.
Context (b : board) (f : board → outcome (score * option move)).
Context (improves : score → score → bool) (init : score) (R : Z → Z → Prop).
Context (Hinit : ∀ z, improves (Fin z) init = true).
Context (Htrue : ∀ n o, improves (Fin n) (Fin o) = true → R o n).
Context (Hfalse : ∀ n o, improves (Fin n) (Fin o) = false → R n o).
Context (Hrefl : ∀ z, R z z) (Htrans : ∀ x y z, R x y → R y z → R x z).

Lemma successor_value_unique (a : move) (z z' : Z) :
  successor_value b f a z → successor_value b f a z' → z = z'.
Proof. intros (b1 & a1 & H1 & H2) (b2 & a2 & H3 & H4). congruence. Qed.

Lemma best_loop (l : list move) :
  (∀ a, a ∈ l → ∃ z, successor_value b f a z) →
  ∃ v best,
    for_each l
      (λ action (acc : score * option move),
         let '(v, best_action) := acc in
         b' ← result b action;
         r ← f b';
         Ok (if improves r.1 v then (r.1, Some action) else (v, best_action)))
      (init, None) = Ok (v, best)
    ∧ ((l = [] ∧ v = init ∧ best = None)
       ∨ (∃ a z, best = Some a ∧ v = Fin z ∧ a ∈ l ∧ successor_value b f a z
            ∧ ∀ a' z', a' ∈ l → successor_value b f a' z' → R z' z)).
Proof.
  intros Hsucc.
  destruct (for_each_invariant
    (λ pre (acc : score * option move),
       (pre = [] ∧ acc.1 = init ∧ acc.2 = None)
       ∨ (∃ a z, acc.2 = Some a ∧ acc.1 = Fin z ∧ a ∈ pre ∧ successor_value b f a z
            ∧ ∀ a' z', a' ∈ pre → successor_value b f a' z' → R z' z))
    (λ action (acc : score * option move),
         let '(v, best_action) := acc in
         b' ← result b action;
         r ← f b';
         Ok (if improves r.1 v then (r.1, Some action) else (v, best_action)))
    l (init, None)) as ([v best] & Hrun & Hinv).
  - by left.
  - intros pre x post [v best] Hl Hinv.
    destruct (Hsucc x) as (zx & Hzx).
    { rewrite Hl. apply elem_of_app. right. left. }
    pose proof Hzx as (b' & a' & Hres & Hf).
    rewrite Hres. cbn [mbind outcome_bind]. rewrite Hf. cbn [mbind outcome_bind fst].
    eexists. split; [done|]. right.
    destruct Hinv as [(-> & Hv & Hb)|(a & z & Hb & Hv & Ha & Haz & Hbest)];
      cbn [fst snd] in *; subst v.
    + rewrite Hinit. exists x, zx. cbn [fst snd]. split_and!; [done|done| |done|].
      * apply elem_of_app. right. left.
      * intros a'' z'' [?%elem_of_nil| ->%list_elem_of_singleton]%elem_of_app Hz'';
          [done|].
        by rewrite (successor_value_unique _ _ _ Hz'' Hzx).
    + destruct (improves (Fin zx) (Fin z)) eqn:Himp; cbn [fst snd].
      * exists x, zx. split_and!; [done|done| |done|].
        -- apply elem_of_app. right. left.
        -- intros a'' z'' [Hin| ->%list_elem_of_singleton]%elem_of_app Hz''.
           ++ eapply Htrans; [by eapply Hbest|by apply Htrue].
           ++ by rewrite (successor_value_unique _ _ _ Hz'' Hzx).
      * exists a, z. split_and!; [done|done| |done|].
        -- apply elem_of_app. by left.
        -- intros a'' z'' [Hin| ->%list_elem_of_singleton]%elem_of_app Hz''.
           ++ by eapply Hbest.
           ++ rewrite (successor_value_unique _ _ _ Hz'' Hzx). by apply Hfalse.
  - exists v, best. split; [done|]. done.
Qed.

End best_loop.

Lemma actions_empty_iff (b : board) (possible : gset move) :
  wf_board b → actions b = Ok possible →
  possible = ∅ ↔ empties b = 0%nat.
Proof.
  intros Hwf Hrun. destruct (actions_Ok b Hwf) as (possible' & Hrun' & Hin).
  rewrite Hrun in Hrun'. injection Hrun' as <-.
  rewrite (empties_0_at b Hwf). split.
  - intros -> i j Hi Hj Hat.
    apply (not_elem_of_empty (C:=gset move) (i, j)), Hin. done.
  - intros Hall. apply set_eq. intros [i j]. rewrite Hin.
    split; [|by intros ?%not_elem_of_empty].
    intros (Hi & Hj & Hat). by destruct (Hall i j Hi Hj).
Qed.

Lemma actions_legal (b : board) (possible : gset move) (a : move) :
  wf_board b → actions b = Ok possible →
  a ∈ possible ↔ ∃ b', result b a = Ok b'.
Proof.
  intros Hwf Hrun. destruct (actions_Ok b Hwf) as (possible' & Hrun' & Hin).
  rewrite Hrun in Hrun'. injection Hrun' as <-.
  destruct a as [i j]. rewrite Hin. split.
  - intros (Hi & Hj & Hat).
    destruct (result_step b i j) as (b' & Hres & _); [lia|lia|done|].
    by exists b'.
  - intros [b' Hres].
    destruct (result_Ok_inv _ _ _ _ Hres) as (Hi & Hj & Hat).
    destruct (at_wf_range b i j _ Hwf Hi Hj Hat). split_and!; [lia..|done].
Qed.

Section minimax.
Context (order : gset move → list move) (Horder : listing order).

Lemma elem_of_order (s : gset move) (a : move) : a ∈ order s ↔ a ∈ s.
Proof. by rewrite (Horder s), elem_of_elements. Qed.

Lemma order_nil (s : gset move) : order s = [] ↔ s = ∅.
Proof.
  split.
  - intros Hnil. apply set_eq. intros a. rewrite <-elem_of_order, Hnil.
    split; [by intros ?%elem_of_nil|by intros ?%not_elem_of_empty].
  - intros ->. apply Permutation_nil_r. by rewrite (Horder ∅), elements_empty.
Qed.

(** Every action of the loop leads to a board on which the recursive call
    returns a value between -1 and 1. *)
Lemma successors_Ok (f : board → outcome (score * option move))
    (fuel : nat) (b : board) (possible : gset move) :
  (∀ b', wf_board b' → (empties b' < fuel)%nat →
         ∃ z a, f b' = Ok (Fin z, a) ∧ -1 ≤ z ≤ 1) →
  wf_board b → (empties b < S fuel)%nat → actions b = Ok possible →
  ∀ a, a ∈ possible → ∃ z, successor_value b f a z ∧ -1 ≤ z ≤ 1.
Proof.
  intros Hrec Hwf Hfuel Hrun a Ha.
  apply (actions_legal b possible a Hwf Hrun) in Ha as [b' Hres].
  destruct (result_Ok_empties _ _ _ Hres) as [He Hwf'].
  destruct (Hrec b') as (z & a' & Hf & Hz); [auto|lia|].
  exists z. split; [|done]. by exists b', a'.
Qed.

Lemma max_value_step (fuel : nat) (b : board) (possible : gset move) :
  (∀ b', wf_board b' → (empties b' < fuel)%nat →
         ∃ z a, min_value order fuel b' = Ok (Fin z, a) ∧ -1 ≤ z ≤ 1) →
  wf_board b → (empties b < S fuel)%nat →
  terminal b = Ok false → actions b = Ok possible →
  ∃ z a, max_value order (S fuel) b = Ok (Fin z, Some a)
    ∧ -1 ≤ z ≤ 1 ∧ a ∈ possible
    ∧ successor_value b (min_value order fuel) a z
    ∧ ∀ a' z', a' ∈ possible →
        successor_value b (min_value order fuel) a' z' → z' ≤ z.
Proof.
  intros Hrec Hwf Hfuel Hterm Hrun.
  pose proof (successors_Ok _ fuel b possible Hrec Hwf Hfuel Hrun) as Hsucc.
  destruct (best_loop b (min_value order fuel) (λ n o, score_lt o n) NegInf
    (λ x y, x ≤ y)) with (l := order possible) as (v & best & Hloop & Hcases).
  - done.
  - intros n o Hlt. apply bool_decide_eq_true in Hlt. lia.
  - intros n o Hlt. apply bool_decide_eq_false in Hlt. lia.
  - intros z. lia.
  - intros x y z. lia.
  - intros a Ha%elem_of_order. destruct (Hsucc a Ha) as (z & Hz & _). by exists z.
  - rewrite max_value_S, Hterm. cbn [mbind outcome_bind]. rewrite Hrun.
    cbn [mbind outcome_bind].
    destruct Hcases as [(Hnil & _)|(a & z & -> & -> & Ha & Haz & Hbest)].
    + exfalso. apply order_nil in Hnil.
      apply (actions_empty_iff b possible Hwf Hrun) in Hnil.
      destruct (terminal_utility_Ok b Hwf) as (t & u & Ht & _ & Htiff & _).
      rewrite Hterm in Ht. injection Ht as <-.
      assert (false = true); [|done]. apply Htiff. auto.
    + apply elem_of_order in Ha.
      assert (-1 ≤ z ≤ 1) as Hz.
      { destruct (Hsucc a Ha) as (z0 & Hz0 & Hb).
        by rewrite (successor_value_unique _ _ _ _ _ Haz Hz0). }
      exists z, a. split_and!; [exact Hloop|lia|lia|done|done|].
      intros a' z' Ha'. apply Hbest. by apply elem_of_order.
Qed.

Lemma min_value_step (fuel : nat) (b : board) (possible : gset move) :
  (∀ b', wf_board b' → (empties b' < fuel)%nat →
         ∃ z a, max_value order fuel b' = Ok (Fin z, a) ∧ -1 ≤ z ≤ 1) →
  wf_board b → (empties b < S fuel)%nat →
  terminal b = Ok false → actions b = Ok possible →
  ∃ z a, min_value order (S fuel) b = Ok (Fin z, Some a)
    ∧ -1 ≤ z ≤ 1 ∧ a ∈ possible
    ∧ successor_value b (max_value order fuel) a z
    ∧ ∀ a' z', a' ∈ possible →
        successor_value b (max_value order fuel) a' z' → z ≤ z'.
Proof.
  intros Hrec Hwf Hfuel Hterm Hrun.
  pose proof (successors_Ok _ fuel b possible Hrec Hwf Hfuel Hrun) as Hsucc.
  destruct (best_loop b (max_value order fuel) (λ n o, score_lt n o) PosInf
    (λ x y, y ≤ x)) with (l := order possible) as (v & best & Hloop & Hcases).
  - done.
  - intros n o Hlt. apply bool_decide_eq_true in Hlt. lia.
  - intros n o Hlt. apply bool_decide_eq_false in Hlt. lia.
  - intros z. lia.
  - intros x y z. lia.
  - intros a Ha%elem_of_order. destruct (Hsucc a Ha) as (z & Hz & _). by exists z.
  - rewrite min_value_S, Hterm. cbn [mbind outcome_bind]. rewrite Hrun.
    cbn [mbind outcome_bind].
    destruct Hcases as [(Hnil & _)|(a & z & -> & -> & Ha & Haz & Hbest)].
    + exfalso. apply order_nil in Hnil.
      apply (actions_empty_iff b possible Hwf Hrun) in Hnil.
      destruct (terminal_utility_Ok b Hwf) as (t & u & Ht & _ & Htiff & _).
      rewrite Hterm in Ht. injection Ht as <-.
      assert (false = true); [|done]. apply Htiff. auto.
    + apply elem_of_order in Ha.
      assert (-1 ≤ z ≤ 1) as Hz.
      { destruct (Hsucc a Ha) as (z0 & Hz0 & Hb).
        by rewrite (successor_value_unique _ _ _ _ _ Haz Hz0). }
      exists z, a. split_and!; [exact Hloop|lia|lia|done|done|].
      intros a' z' Ha'. apply Hbest. by apply elem_of_order.
Qed.

End minimax.

Lemma values_Ok (order : gset move → list move) (fuel : nat) (b : board) :
  listing order → wf_board b → (empties b < fuel)%nat →
  (∃ z a, max_value order fuel b = Ok (Fin z, a) ∧ -1 ≤ z ≤ 1)
  ∧ (∃ z a, min_value order fuel b = Ok (Fin z, a) ∧ -1 ≤ z ≤ 1).
Proof.
  intros Horder. revert b. induction fuel as [|fuel IH]; intros b Hwf Hfuel; [lia|].
  destruct (terminal_utility_Ok b Hwf) as (t & u & Ht & Hu & _ & _ & _ & _ & _ & Hbound).
  destruct t.
  - rewrite max_value_S, min_value_S, Ht. cbn [mbind outcome_bind]. rewrite Hu.
    cbn [mbind outcome_bind]. split; by exists u, None.
  - destruct (actions_Ok b Hwf) as (possible & Hrun & _). split.
    + destruct (max_value_step order Horder fuel b possible)
        as (z & a & Hmax & Hz & _); [|done..|by exists z, (Some a)].
      intros b' Hwf' Hfuel'. by apply IH.
    + destruct (min_value_step order Horder fuel b possible)
        as (z & a & Hmin & Hz & _); [|done..|by exists z, (Some a)].
      intros b' Hwf' Hfuel'. by apply IH.
Qed.

(** X14.  With more fuel than empty cells [minimax] returns, and what it
    returns does not depend on the fuel: [None] on a board where the game
    is over, and otherwise an action that [result] accepts. *)
Theorem minimax_returns_a_legal_move (order : gset move → list move)
    (fuel : nat) (b : board) :
  listing order → wf_board b → (empties b < fuel)%nat →
  ∃ r, minimax order fuel b = Ok r
    ∧ (∀ fuel', (empties b < fuel')%nat → minimax order fuel' b = Ok r)
    ∧ (terminal b = Ok true → r = None)
    ∧ (terminal b = Ok false → ∃ a b', r = Some a ∧ result b a = Ok b').
Proof.
  intros Horder Hwf Hfuel.
  assert (∃ r, minimax order fuel b = Ok r
    ∧ (terminal b = Ok true → r = None)
    ∧ (terminal b = Ok false → ∃ a b', r = Some a ∧ result b a = Ok b'))
    as (r & Hr & Hterm & Hmove).
  { destruct fuel as [|fuel]; [lia|].
    destruct (terminal_utility_Ok b Hwf) as (t & u & Ht & Hu & _).
    destruct (actions_Ok b Hwf) as (possible & Hrun & _).
    unfold minimax. destruct t.
    - rewrite max_value_S, min_value_S, Ht. cbn [mbind outcome_bind]. rewrite Hu.
      cbn [mbind outcome_bind]. exists None. split_and!; [by case_decide|done|congruence].
    - destruct (max_value_step order Horder fuel b possible)
        as (z & a & Hmax & _ & Ha & _); [|done..|].
      { intros b' Hwf' Hfuel'. by apply values_Ok. }
      destruct (min_value_step order Horder fuel b possible)
        as (z' & a' & Hmin & _ & Ha' & _); [|done..|].
      { intros b' Hwf' Hfuel'. by apply values_Ok. }
      apply (actions_legal b possible _ Hwf Hrun) in Ha as [ba Hba].
      apply (actions_legal b possible _ Hwf Hrun) in Ha' as [ba' Hba'].
      rewrite Hmax, Hmin. cbn [mbind outcome_bind snd].
      case_decide; eexists; (split_and!; [done|congruence|]); intros _; eauto. }
  exists r. split_and!; [done| |done|done].
  intros fuel' Hfuel'. rewrite <-Hr. unfold minimax.
  destruct (fuel_independent order fuel fuel' b Hfuel Hfuel') as [-> ->]. done.
Qed.

Lemma minimax_returns_a_legal_move_witness :
  ∃ r, minimax elements 10 initial_state = Ok r
    ∧ (terminal initial_state = Ok false →
       ∃ a b', r = Some a ∧ result initial_state a = Ok b').
Proof.
  destruct (minimax_returns_a_legal_move elements 10 initial_state)
    as (r & Hr & _ & _ & Hmove).
  - intros s. reflexivity.
  - split; [reflexivity|]. repeat constructor.
  - vm_compute. lia.
  - exists r. split; assumption.
Defined.

(** The value that a recursive call finds for the board after an action
    does not depend on the fuel of the call. *)
Lemma successor_value_fuel (order : gset move → list move) (fuel fuel' : nat)
    (b : board) (a : move) (z : Z) :
  (empties b ≤ fuel)%nat → (empties b ≤ fuel')%nat →
  (successor_value b (min_value order fuel) a z
   ↔ successor_value b (min_value order fuel') a z)
  ∧ (successor_value b (max_value order fuel) a z
     ↔ successor_value b (max_value order fuel') a z).
Proof.
  intros Hf Hf'.
  assert (∀ b', result b a = Ok b' →
    max_value order fuel b' = max_value order fuel' b'
    ∧ min_value order fuel b' = min_value order fuel' b') as Heq.
  { intros b' Hres. destruct (result_Ok_empties _ _ _ Hres) as [He _].
    apply fuel_independent; lia. }
  split; split; intros (b' & a' & Hres & Hv); exists b', a'; (split; [done|]);
    destruct (Heq b' Hres) as [Hmax Hmin]; congruence.
Qed.

(** X15.  [minimax] plays optimally within the recursion of the code: on a
    3x3 board where the game is not over it returns an action whose
    resulting board has the best value among the boards of all legal
    actions, the largest value of [min_value] when X is to move and the
    smallest value of [max_value] when O is to move; all these values lie
    between -1 and 1. *)
Theorem minimax_optimal (order : gset move → list move) (fuel : nat) (b : board) :
  listing order → wf_board b → (empties b < fuel)%nat →
  terminal b = Ok false →
  ∃ a b' z a1,
    minimax order fuel b = Ok (Some a)
    ∧ result b a = Ok b'
    ∧ -1 ≤ z ≤ 1
    ∧ (player b = X →
         min_value order fuel b' = Ok (Fin z, a1)
         ∧ ∀ a' b'' z' a2, result b a' = Ok b'' →
             min_value order fuel b'' = Ok (Fin z', a2) → z' ≤ z)
    ∧ (player b = O →
         max_value order fuel b' = Ok (Fin z, a1)
         ∧ ∀ a' b'' z' a2, result b a' = Ok b'' →
             max_value order fuel b'' = Ok (Fin z', a2) → z ≤ z').
Proof.
  intros Horder Hwf Hfuel Hterm.
  destruct fuel as [|fuel]; [lia|].
  destruct (actions_Ok b Hwf) as (possible & Hrun & _).
  unfold minimax. destruct (player b) eqn:Hplayer.
  - rewrite decide_True by done.
    destruct (max_value_step order Horder fuel b possible)
      as (z & a & Hmax & Hz & Ha & Haz & Hbest); [|done..|].
    { intros b' Hwf' Hfuel'. by apply values_Ok. }
    apply (successor_value_fuel order fuel (S fuel) b a z) in Haz; [|lia..].
    destruct Haz as (b' & a1 & Hres & Hval).
    rewrite Hmax. cbn [mbind outcome_bind snd].
    exists a, b', z, a1. split_and!; [done|done|lia|lia| |done].
    intros _. split; [done|]. intros a' b'' z' a2 Hres' Hval'.
    apply (Hbest a' z').
    + apply (actions_legal b possible a' Hwf Hrun). by exists b''.
    + apply (successor_value_fuel order fuel (S fuel) b a' z'); [lia..|].
      by exists b'', a2.
  - rewrite decide_False by done.
    destruct (min_value_step order Horder fuel b possible)
      as (z & a & Hmin & Hz & Ha & Haz & Hbest); [|done..|].
    { intros b' Hwf' Hfuel'. by apply values_Ok. }
    apply (successor_value_fuel order fuel (S fuel) b a z) in Haz; [|lia..].
    destruct Haz as (b' & a1 & Hres & Hval).
    rewrite Hmin. cbn [mbind outcome_bind snd].
    exists a, b', z, a1. split_and!; [done|done|lia|lia|done|].
    intros _. split; [done|]. intros a' b'' z' a2 Hres' Hval'.
    apply (Hbest a' z').
    + apply (actions_legal b possible a' Hwf Hrun). by exists b''.
    + apply (successor_value_fuel order fuel (S fuel) b a' z'); [lia..|].
      by exists b'', a2.
Qed.

Lemma minimax_optimal_witness :
  ∃ a b', minimax elements 10 initial_state = Ok (Some a)
    ∧ result initial_state a = Ok b'.
Proof.
  destruct (minimax_optimal elements 10 initial_state)
    as (a & b' & z & a1 & Hm & Hres & _).
  - intros s. reflexivity.
  - split; [reflexivity|]. repeat constructor.
  - vm_compute. lia.
  - reflexivity.
  - exists a, b'. split; assumption.
Defined.

Lemma successor_value_congr (b : board)
    (f g : board → outcome (score * option move)) (a : move) (z : Z) :
  (∀ b', result b a = Ok b' →
         ∃ z a1 a2, f b' = Ok (Fin z, a1) ∧ g b' = Ok (Fin z, a2)) →
  successor_value b f a z ↔ successor_value b g a z.
Proof.
  intros Hfg. split; intros (b' & a' & Hres & Hv);
    destruct (Hfg b' Hres) as (z0 & a1 & a2 & Hf & Hg); exists b'.
  - exists a2. split; [exact Hres|]. rewrite Hg. rewrite Hf in Hv. congruence.
  - exists a1. split; [exact Hres|]. rewrite Hf. rewrite Hg in Hv. congruence.
Qed.

Lemma values_order_independent (order1 order2 : gset move → list move)
    (fuel : nat) (b : board) :
  listing order1 → listing order2 → wf_board b → (empties b < fuel)%nat →
  (∃ z a1 a2, max_value order1 fuel b = Ok (Fin z, a1)
              ∧ max_value order2 fuel b = Ok (Fin z, a2))
  ∧ (∃ z a1 a2, min_value order1 fuel b = Ok (Fin z, a1)
                ∧ min_value order2 fuel b = Ok (Fin z, a2)).
Proof.
  intros H1 H2. revert b.
  induction fuel as [|fuel IH]; intros b Hwf Hfuel; [lia|].
  destruct (terminal_utility_Ok b Hwf) as (t & u & Ht & Hu & _).
  destruct t.
  - rewrite !max_value_S, !min_value_S, Ht. cbn [mbind outcome_bind]. rewrite Hu.
    cbn [mbind outcome_bind]. split; by exists u, None, None.
  - destruct (actions_Ok b Hwf) as (possible & Hrun & _).
    assert (∀ a z,
      (successor_value b (min_value order1 fuel) a z
       ↔ successor_value b (min_value order2 fuel) a z)
      ∧ (successor_value b (max_value order1 fuel) a z
         ↔ successor_value b (max_value order2 fuel) a z)) as Hsame.
    { intros a z. split; apply successor_value_congr; intros b' Hres;
        destruct (result_Ok_empties _ _ _ Hres) as [He Hwf'];
        apply IH; auto; lia. }
    split.
    + destruct (max_value_step order1 H1 fuel b possible)
        as (z1 & a1 & Hmax1 & _ & Ha1 & Haz1 & Hbest1); [|done..|].
      { intros b' Hwf' Hfuel'. by apply values_Ok. }
      destruct (max_value_step order2 H2 fuel b possible)
        as (z2 & a2 & Hmax2 & _ & Ha2 & Haz2 & Hbest2); [|done..|].
      { intros b' Hwf' Hfuel'. by apply values_Ok. }
      assert (z2 ≤ z1) by (apply (Hbest1 a2); [done|by apply Hsame]).
      assert (z1 ≤ z2) by (apply (Hbest2 a1); [done|by apply Hsame]).
      assert (z1 = z2) as -> by lia.
      by exists z2, (Some a1), (Some a2).
    + destruct (min_value_step order1 H1 fuel b possible)
        as (z1 & a1 & Hmin1 & _ & Ha1 & Haz1 & Hbest1); [|done..|].
      { intros b' Hwf' Hfuel'. by apply values_Ok. }
      destruct (min_value_step order2 H2 fuel b possible)
        as (z2 & a2 & Hmin2 & _ & Ha2 & Haz2 & Hbest2); [|done..|].
      { intros b' Hwf' Hfuel'. by apply values_Ok. }
      assert (z1 ≤ z2) by (apply (Hbest1 a2); [done|by apply Hsame]).
      assert (z2 ≤ z1) by (apply (Hbest2 a1); [done|by apply Hsame]).
      assert (z1 = z2) as -> by lia.
      by exists z2, (Some a1), (Some a2).
Qed.

(** X16.  The value that [max_value] and [min_value] find for a 3x3 board
    does not depend on the order in which the set of actions is iterated;
    only the action returned with it may. *)
Theorem minimax_value_order_independent (order1 order2 : gset move → list move)
    (fuel : nat) (b : board) :
  listing order1 → listing order2 → wf_board b → (empties b < fuel)%nat →
  (∃ z a1 a2, max_value order1 fuel b = Ok (Fin z, a1)
              ∧ max_value order2 fuel b = Ok (Fin z, a2) ∧ -1 ≤ z ≤ 1)
  ∧ (∃ z a1 a2, min_value order1 fuel b = Ok (Fin z, a1)
                ∧ min_value order2 fuel b = Ok (Fin z, a2) ∧ -1 ≤ z ≤ 1).
Proof.
  intros H1 H2 Hwf Hfuel.
  destruct (values_order_independent order1 order2 fuel b H1 H2 Hwf Hfuel)
    as [(zx & x1 & x2 & Hx1 & Hx2) (zn & n1 & n2 & Hn1 & Hn2)].
  destruct (values_Ok order1 fuel b H1 Hwf Hfuel)
    as [(zx' & x' & Hx' & Hbx) (zn' & n' & Hn' & Hbn)].
  rewrite Hx1 in Hx'. injection Hx' as <- <-.
  rewrite Hn1 in Hn'. injection Hn' as <- <-.
  split; [by exists zx, x1, x2|by exists zn, n1, n2].
Qed.

Lemma minimax_value_order_independent_witness :
  ∃ z a1 a2, max_value elements 10 initial_state = Ok (Fin z, a1)
             ∧ max_value (λ s, reverse (elements s)) 10 initial_state = Ok (Fin z, a2).
Proof.
  destruct (minimax_value_order_independent elements (λ s, reverse (elements s))
    10 initial_state) as [(z & a1 & a2 & H1 & H2 & _) _].
  - intros s. reflexivity.
  - intros s. apply reverse_Permutation.
  - split; [reflexivity|]. repeat constructor.
  - vm_compute. lia.
  - exists z, a1, a2. split; assumption.
Defined.

(** ** A whole game *)

Lemma count_row_cons (m : mark) (c : cell) (row : list cell) :
  count_row m (c :: row)
  = ((if decide (c = Some m) then 1 else 0) + count_row m row)%nat.
Proof. unfold count_row. rewrite filter_cons. by case_decide. Qed.

Lemma count_row_insert (m p : mark) (row : list cell) (k : nat) :
  row !! k = Some EMPTY →
  count_row m (<[k := Some p]> row)
  = ((if decide (m = p) then 1 else 0) + count_row m row)%nat.
Proof.
  revert k. induction row as [|c row IH]; intros k Hk; [done|].
  destruct k as [|k]; cbn in Hk.
  - injection Hk as ->.
    change (<[0%nat := Some p]> (EMPTY :: row)) with (Some p :: row).
    rewrite !count_row_cons.
    rewrite (decide_False (P := EMPTY = Some m)) by done.
    repeat case_decide; try done; congruence.
  - change (<[S k := Some p]> (c :: row)) with (c :: <[k := Some p]> row).
    rewrite !count_row_cons, (IH k Hk).
    repeat case_decide; lia.
Qed.

Lemma count_mark_insert (m : mark) (b : board) (k : nat) (row row' : list cell)
    (n : nat) :
  b !! k = Some row →
  count_row m row' = (n + count_row m row)%nat →
  count_mark m (<[k := row']> b) = (n + count_mark m b)%nat.
Proof.
  unfold count_mark. revert k. induction b as [|r b IH]; intros k Hk Hrow; [done|].
  destruct k as [|k]; cbn in Hk.
  - injection Hk as ->.
    change (<[0%nat := row']> (row :: b)) with (row' :: b).
    rewrite !fmap_cons. cbn -[count_row]. rewrite Hrow. lia.
  - change (<[S k := row']> (r :: b)) with (r :: <[k := row']> b).
    rewrite !fmap_cons. cbn -[count_row]. rewrite (IH k Hk Hrow). lia.
Qed.

Lemma result_count_mark (b b' : board) (a : move) (m : mark) :
  result b a = Ok b' →
  count_mark m b' = ((if decide (m = player b) then 1 else 0) + count_mark m b)%nat.
Proof.
  destruct a as [i j]. intros Hres.
  destruct (result_Ok_inv _ _ _ _ Hres) as (Hi & Hj & Hat).
  apply at_Ok_lookup in Hat as (row & Hrow & Hc); [|done..].
  rewrite (result_Ok b i j row Hi Hj Hrow Hc) in Hres. injection Hres as <-.
  eapply count_mark_insert; [done|]. by apply count_row_insert.
Qed.

Lemma in_turn_initial_state : in_turn initial_state.
Proof.
  split_and!; [apply wf_initial_state|reflexivity|].
  left. split; reflexivity.
Qed.

Lemma in_turn_result (b b' : board) (a : move) :
  in_turn b → result b a = Ok b' → in_turn b'.
Proof.
  intros (Hwf & Hsum & Hturn) Hres.
  destruct (result_Ok_empties _ _ _ Hres) as [He Hwf'].
  pose proof (result_count_mark _ _ _ X Hres) as HX.
  pose proof (result_count_mark _ _ _ O Hres) as HO.
  pose proof (player_flips _ _ He) as Hflip.
  split_and!; [auto| |].
  - destruct Hturn as [[Hp _]|[Hp _]]; rewrite Hp in HX, HO;
      repeat case_decide; try done; lia.
  - destruct Hturn as [[Hp Heq]|[Hp Heq]]; rewrite Hp in HX, HO, Hflip;
      repeat case_decide; try done;
      destruct (player b'); try done; [right|left]; (split; [done|lia]).
Qed.

Lemma play_in_turn (moves : list move) (b0 b : board) :
  in_turn b0 → play b0 moves = Ok b →
  in_turn b ∧ empties b0 = (empties b + length moves)%nat.
Proof.
  revert b0. induction moves as [|a moves IH]; intros b0 Hin Hplay.
  - injection Hplay as <-. split; [done|]. cbn. lia.
  - cbn [play] in Hplay.
    destruct (result b0 a) as [b1| |] eqn:Hres; cbn [mbind outcome_bind] in Hplay;
      [|done..].
    destruct (IH b1 (in_turn_result _ _ _ Hin Hres) Hplay) as [Hb Hlen].
    split; [done|].
    destruct (result_Ok_empties _ _ _ Hres) as [He _]. cbn [length]. lia.
Qed.

(** X17.  The turn order of a game: after any sequence of moves that
    [result] accepts from [initial_state], the board is 3x3, it holds as
    many marks as moves were made, X has as many marks as O when [player]
    says X is to move and one more when [player] says O is to move, and
    at most nine moves can be made. *)
Theorem play_keeps_turn_order (moves : list move) (b : board) :
  play initial_state moves = Ok b →
  wf_board b
  ∧ (empties b + length moves = 9)%nat
  ∧ (count_mark X b + count_mark O b = length moves)%nat
  ∧ ((player b = X ∧ count_mark X b = count_mark O b)
     ∨ (player b = O ∧ count_mark X b = S (count_mark O b))).
Proof.
  intros Hplay.
  destruct (play_in_turn moves initial_state b in_turn_initial_state Hplay)
    as [(Hwf & Hsum & Hturn) Hlen].
  assert (empties initial_state = 9%nat) as H9 by reflexivity.
  rewrite H9 in Hlen. split_and!; [done|lia|lia|done].
Qed.

Lemma play_keeps_turn_order_witness :
  let b : board := [[EMPTY; EMPTY; EMPTY];
                    [EMPTY; Some X; EMPTY];
                    [Some O; EMPTY; EMPTY]] in
  (count_mark X b + count_mark O b = 2)%nat ∧ wf_board b.
Proof.
  intros b.
  destruct (play_keeps_turn_order [(1, 1); (2, 0)] b) as (Hwf & _ & Hcount & _).
  - reflexivity.
  - split; assumption.
Defined.

End TicTacToe.
